(** * The statechart structural core of [pyss/statemachine.py]

    A shallow embedding of the [StateMachine] registry, its hierarchy
    queries ([ancestors_for], [descendants_for], [depth_of],
    [least_common_ancestor], [leaf_for]) and of the [valid] property,
    followed by the properties of these operations. The scanning helpers
    of [sismic/testing.py] are embedded in the module [testing].

    Conventions of the embedding:
    - state names are Python [str], here [string]; a name-or-[None] is
      [option string];
    - Python truthiness of a name-or-[None] ([while parent:],
      [if self.parent[name] and ...]) is [truthy]: [None] and the empty
      string are both false;
    - [self.states] is iterated by [valid] in insertion order, so it is an
      insertion-ordered association list ([dict_get]/[dict_set]);
      [self.parent] is only ever indexed, so it is a [gmap];
    - the registration methods mutate the machine and may raise after a
      part of the mutation has happened: they live in a state-and-exception
      monad [M] that keeps the machine as it was at the raise;
    - the [while] loops of the queries run on fuel; [OutOfFuel] is not a
      Python outcome, it only says that the given fuel was too small;
    - [lru_cache] memoises the queries per argument; on a machine that is
      not mutated between two calls the cached call returns what the
      function body returns, which is what is modelled here. *)

From stdpp Require Import gmap strings list fin_maps.

Set Default Proof Using "Type".
Set Warnings "-register-all".
Open Scope string_scope.
Open Scope list_scope.
Open Scope nat_scope.

(** ** Data model *)

(** [Event]: equality is by name only ([__eq__]); an instance is always
    truthy, the class defines neither [__bool__] nor [__len__]. *)
Record Event := mkEvent {
  ev_name : string;
  ev_data : option (list (string * string))
}.

Definition Event_eq (e1 e2 : Event) : bool :=
  bool_decide (ev_name e1 = ev_name e2).

Record Transition := mkTransition {
  from_state : string;
  to_state : option string;
  event : option Event;
  guard : option string;
  action : option string
}.

Definition internal (t : Transition) : bool :=
  match to_state t with None => true | Some _ => false end.

Definition eventless (t : Transition) : bool :=
  match event t with None => true | Some _ => false end.

(** The five state classes, each with the attributes its mixins give it. *)
Inductive State :=
| BasicState (name : string) (transitions : list Transition)
    (on_entry on_exit : option string)
| CompoundState (name : string) (initial : string)
    (transitions : list Transition) (on_entry on_exit : option string)
    (children : list string)
| OrthogonalState (name : string) (transitions : list Transition)
    (on_entry on_exit : option string) (children : list string)
| HistoryState (name : string) (memory : list (option string))
    (initial : option string) (deep : bool)
| FinalState (name : string) (on_entry on_exit : option string).

Definition state_name (s : State) : string :=
  match s with
  | BasicState n _ _ _ | CompoundState n _ _ _ _ _
  | OrthogonalState n _ _ _ _ | HistoryState n _ _ _
  | FinalState n _ _ => n
  end.

Definition class_name (s : State) : string :=
  match s with
  | BasicState _ _ _ _ => "BasicState"
  | CompoundState _ _ _ _ _ _ => "CompoundState"
  | OrthogonalState _ _ _ _ _ => "OrthogonalState"
  | HistoryState _ _ _ _ => "HistoryState"
  | FinalState _ _ _ => "FinalState"
  end.

(** [isinstance(state, CompositeStateMixin)] *)
Definition is_composite (s : State) : bool :=
  match s with
  | CompoundState _ _ _ _ _ _ | OrthogonalState _ _ _ _ _ => true
  | _ => false
  end.

(** [isinstance(state, TransitionStateMixin)] *)
Definition is_transition_state (s : State) : bool :=
  match s with
  | BasicState _ _ _ _ | CompoundState _ _ _ _ _ _
  | OrthogonalState _ _ _ _ _ => true
  | _ => false
  end.

(** [state.children], for the classes that have the attribute. *)
Definition state_children (s : State) : option (list string) :=
  match s with
  | CompoundState _ _ _ _ _ ch | OrthogonalState _ _ _ _ ch => Some ch
  | _ => None
  end.

(** [state.transitions], for the classes that have the attribute. *)
Definition state_transitions (s : State) : option (list Transition) :=
  match s with
  | BasicState _ ts _ _ | CompoundState _ _ ts _ _ _
  | OrthogonalState _ ts _ _ _ => Some ts
  | _ => None
  end.

(** The children a state contributes to a traversal: its [children] when
    it is a composite, none otherwise. *)
Definition children_of (s : State) : list string :=
  default [] (state_children s).

(** ** Exceptions and outcomes *)

(** The messages of the [ValueError]s raised by [valid], one per [raise]. *)
Inductive validation_error :=
| UnknownStateRef (t : Transition)
| InternalEventlessGuardless (t : Transition)
| HistoryParentNotCompound (s : State)
| HistoryInitialNotSibling (s : State) (parent : option string)
| EmptyComposite (s : State)
| InitialNotChild (s : State).

Inductive exn :=
| KeyError (key : option string)
| AttributeError (class attr : string)
| ValueError (msg : validation_error).

Inductive outcome (A : Type) :=
| Returns (a : A)
| Raises (e : exn)
| OutOfFuel.
Arguments Returns {A} a.
Arguments Raises {A} e.
Arguments OutOfFuel {A}.

Definition obind {A B} (x : outcome A) (f : A → outcome B) : outcome B :=
  match x with
  | Returns a => f a
  | Raises e => Raises e
  | OutOfFuel => OutOfFuel
  end.

(** ** Insertion-ordered dictionaries *)

Section dict.
Context {V : Type}.

Fixpoint dict_get (k : string) (d : list (string * V)) : option V :=
  match d with
  | [] => None
  | (k', v) :: d' => if decide (k = k') then Some v else dict_get k d'
  end.

(** [d[k] = v]: an existing key keeps its position, a new one goes last. *)
Fixpoint dict_set (k : string) (v : V) (d : list (string * V))
  : list (string * V) :=
  match d with
  | [] => [(k, v)]
  | (k', v') :: d' =>
      if decide (k = k') then (k, v) :: d' else (k', v') :: dict_set k v d'
  end.

(** [d.get(k, None)] with a key that may be [None]: no key is [None]. *)
Definition dict_get_opt (k : option string) (d : list (string * V))
  : option V :=
  match k with
  | Some k => dict_get k d
  | None => None
  end.
End dict.

(** ** The machine *)

Record StateMachine := mkStateMachine {
  sm_name : string;
  sm_initial : string;
  sm_on_entry : option string;
  states : list (string * State);
  transitions : list Transition;
  parent : gmap string (option string);
  children : list string
}.

(** [StateMachine.__init__] *)
Definition new_machine (name initial : string) (on_entry : option string)
  : StateMachine :=
  mkStateMachine name initial on_entry [] [] ∅ [].

Definition set_states (f : list (string * State) → list (string * State))
    (m : StateMachine) : StateMachine :=
  mkStateMachine (sm_name m) (sm_initial m) (sm_on_entry m)
    (f (states m)) (transitions m) (parent m) (children m).

Definition set_transitions (f : list Transition → list Transition)
    (m : StateMachine) : StateMachine :=
  mkStateMachine (sm_name m) (sm_initial m) (sm_on_entry m)
    (states m) (f (transitions m)) (parent m) (children m).

Definition set_parent
    (f : gmap string (option string) → gmap string (option string))
    (m : StateMachine) : StateMachine :=
  mkStateMachine (sm_name m) (sm_initial m) (sm_on_entry m)
    (states m) (transitions m) (f (parent m)) (children m).

Definition set_children (f : list string → list string)
    (m : StateMachine) : StateMachine :=
  mkStateMachine (sm_name m) (sm_initial m) (sm_on_entry m)
    (states m) (transitions m) (parent m) (f (children m)).

(** Truthiness of a name-or-[None]. *)
Definition truthy (x : option string) : bool :=
  match x with
  | None => false
  | Some s => negb (bool_decide (s = ""))
  end.

(** ** The registration monad: machine state plus exceptions *)

Definition M (A : Type) : Type := StateMachine → outcome A * StateMachine.

Global Instance outcome_ret : MRet outcome := λ A a, Returns a.
Global Instance outcome_bind : MBind outcome := λ A B f x, obind x f.

Global Instance M_ret : MRet M := λ A a m, (Returns a, m).
Global Instance M_bind : MBind M := λ A B f x m,
  match x m with
  | (Returns a, m') => f a m'
  | (Raises e, m') => (Raises e, m')
  | (OutOfFuel, m') => (OutOfFuel, m')
  end.

Definition raise {A} (e : exn) : M A := λ m, (Raises e, m).
Definition gets {A} (f : StateMachine → A) : M A := λ m, (Returns (f m), m).
Definition modify (f : StateMachine → StateMachine) : M unit :=
  λ m, (Returns (), f m).

(** [self.states[key]] *)
Definition states_getitem (key : option string) : M State :=
  d ← gets states;
  match dict_get_opt key d with
  | Some s => mret s
  | None => raise (KeyError key)
  end.

(** [self.parent[key]] *)
Definition parent_getitem (key : string) : M (option string) :=
  p ← gets parent;
  match p !! key with
  | Some v => mret v
  | None => raise (KeyError (Some key))
  end.

(** [CompositeStateMixin.add_child] on the object bound to [key] in
    [self.states]: the attribute lookup fails on the other classes. *)
Definition add_child (s : State) (state_name : string) : outcome State :=
  match s with
  | CompoundState n i ts en ex ch =>
      Returns (CompoundState n i ts en ex (ch ++ [state_name]))
  | OrthogonalState n ts en ex ch =>
      Returns (OrthogonalState n ts en ex (ch ++ [state_name]))
  | _ => Raises (AttributeError (class_name s) "add_child")
  end.

(** [TransitionStateMixin.add_transition] *)
Definition add_transition (s : State) (t : Transition) : outcome State :=
  match s with
  | BasicState n ts en ex => Returns (BasicState n (ts ++ [t]) en ex)
  | CompoundState n i ts en ex ch =>
      Returns (CompoundState n i (ts ++ [t]) en ex ch)
  | OrthogonalState n ts en ex ch =>
      Returns (OrthogonalState n (ts ++ [t]) en ex ch)
  | _ => Raises (AttributeError (class_name s) "add_transition")
  end.

(** A method call on the object stored under [key]: the object is mutated
    in place, so the entry keeps its position in the dictionary. *)
Definition update_state (key : string) (r : outcome State) : M unit :=
  match r with
  | Returns s' => modify (set_states (dict_set key s'))
  | Raises e => raise e
  | OutOfFuel => λ m, (OutOfFuel, m)
  end.

(** The [parent] argument of [register_state] is a state object, a name,
    or [None]. *)
Inductive parent_arg :=
| ParentState (s : State)
| ParentName (n : option string).

(** [parent.name if isinstance(parent, StateMixin) else parent] *)
Definition parent_name (p : parent_arg) : option string :=
  match p with
  | ParentState s => Some (state_name s)
  | ParentName n => n
  end.

Definition register_state (state : State) (parent_ : parent_arg) : M unit :=
  modify (set_states (dict_set (state_name state) state));;
  modify (set_parent <[state_name state := parent_name parent_]>);;
  pn ← parent_getitem (state_name state);
  d ← gets states;
  match dict_get_opt pn d with
  | Some _ =>
      pn' ← parent_getitem (state_name state);
      ps ← states_getitem pn';
      match pn' with
      | Some key => update_state key (add_child ps (state_name state))
      | None => raise (KeyError None)
      end
  | None =>
      modify (set_children (λ c, c ++ [state_name state]))
  end.

Definition register_transition (transition : Transition) : M unit :=
  modify (set_transitions (λ ts, ts ++ [transition]));;
  s ← states_getitem (Some (from_state transition));
  update_state (from_state transition) (add_transition s transition).

(** Running a sequence of registrations from a machine; stops at the
    first raise. *)
Inductive registration :=
| RegState (s : State) (p : parent_arg)
| RegTransition (t : Transition).

Definition register (r : registration) : M unit :=
  match r with
  | RegState s p => register_state s p
  | RegTransition t => register_transition t
  end.

Fixpoint register_all (rs : list registration) : M unit :=
  match rs with
  | [] => mret ()
  | r :: rs' => register r;; register_all rs'
  end.

Definition build (rs : list registration) (m : StateMachine) : StateMachine :=
  snd (register_all rs m).

(** ** The hierarchy queries

    The queries only read the machine, so they are functions of it. *)

(** [self.parent[key]] and [self.states[key]] in a query. *)
Definition parent_lookup (m : StateMachine) (key : string)
  : outcome (option string) :=
  match parent m !! key with
  | Some v => Returns v
  | None => Raises (KeyError (Some key))
  end.

Definition states_lookup (m : StateMachine) (key : option string)
  : outcome State :=
  match dict_get_opt key (states m) with
  | Some s => Returns s
  | None => Raises (KeyError key)
  end.

(** The [while parent:] loop of [ancestors_for]; one unit of fuel per
    execution of the loop body. *)
Fixpoint ancestors_loop (fuel : nat) (m : StateMachine)
    (ancestors : list string) (parent_ : option string)
  : outcome (list string) :=
  match parent_ with
  | Some p =>
      if truthy (Some p) then
        match fuel with
        | 0 => OutOfFuel
        | S fuel' =>
            parent' ← parent_lookup m p;
            ancestors_loop fuel' m (ancestors ++ [p]) parent'
        end
      else Returns ancestors
  | None => Returns ancestors
  end.

Definition ancestors_for (fuel : nat) (m : StateMachine) (state : string)
  : outcome (list string) :=
  parent_ ← parent_lookup m state;
  ancestors_loop fuel m [] parent_.

(** The [for child in state.children] loop of [descendants_for], on the
    pair of lists it appends to. *)
Definition append_children (children_ : list string)
    (acc : list string * list string) : list string * list string :=
  foldl (λ '(states_to_consider, descendants) child,
           (states_to_consider ++ [child], descendants ++ [child]))
        acc children_.

(** The [while states_to_consider:] loop of [descendants_for]. *)
Fixpoint descendants_loop (fuel : nat) (m : StateMachine)
    (descendants states_to_consider : list string)
  : outcome (list string) :=
  match states_to_consider with
  | [] => Returns descendants
  | state :: rest =>
      match fuel with
      | 0 => OutOfFuel
      | S fuel' =>
          st ← states_lookup m (Some state);
          if is_composite st then
            let '(states_to_consider', descendants') :=
              append_children (children_of st) (rest, descendants) in
            descendants_loop fuel' m descendants' states_to_consider'
          else descendants_loop fuel' m descendants rest
      end
  end.

Definition descendants_for (fuel : nat) (m : StateMachine) (state : string)
  : outcome (list string) :=
  descendants_loop fuel m [] [state].

Definition depth_of (fuel : nat) (m : StateMachine) (state : option string)
  : outcome nat :=
  match state with
  | None => Returns 0
  | Some s =>
      ancestors ← ancestors_for fuel m s;
      Returns (length ancestors + 1)
  end.

(** [for state in s1_anc: if state in s2_anc: return state], with the
    implicit [return None] when the loop ends. *)
Fixpoint first_common (s1_anc s2_anc : list string) : option string :=
  match s1_anc with
  | [] => None
  | state :: rest =>
      if bool_decide (state ∈ s2_anc) then Some state
      else first_common rest s2_anc
  end.

Definition least_common_ancestor (fuel : nat) (m : StateMachine)
    (s1 s2 : string) : outcome (option string) :=
  s1_anc ← ancestors_for fuel m s1;
  s2_anc ← ancestors_for fuel m s2;
  Returns (first_common s1_anc s2_anc).

(** The inner loop of [leaf_for]: [keep] after scanning the descendants,
    the [break] making the rest of the scan irrelevant. *)
Fixpoint keep_after (states_ : list string) (descendants : list string)
  : bool :=
  match descendants with
  | [] => true
  | descendant :: rest =>
      if bool_decide (descendant ∈ states_) then false
      else keep_after states_ rest
  end.

(** The outer loop of [leaf_for] over the states still to visit. *)
Fixpoint leaf_loop (fuel : nat) (m : StateMachine) (states_ : list string)
    (leaves todo : list string) : outcome (list string) :=
  match todo with
  | [] => Returns leaves
  | state :: todo' =>
      ds ← descendants_for fuel m state;
      if keep_after states_ ds
      then leaf_loop fuel m states_ (leaves ++ [state]) todo'
      else leaf_loop fuel m states_ leaves todo'
  end.

Definition leaf_for (fuel : nat) (m : StateMachine) (states_ : list string)
  : outcome (list string) :=
  leaf_loop fuel m states_ [] states_.

(** ** Validation *)

Definition in_states (m : StateMachine) (key : option string) : bool :=
  bool_decide (is_Some (dict_get_opt key (states m))).

Definition is_compound (s : State) : bool :=
  match s with CompoundState _ _ _ _ _ _ => true | _ => false end.

(** The body of the loop over [self.transitions]: C1 then C6. *)
Definition check_transition (m : StateMachine) (t : Transition)
  : outcome unit :=
  if negb (in_states m (Some (from_state t))
           && (negb (truthy (to_state t)) || in_states m (to_state t)))
  then Raises (ValueError (UnknownStateRef t))
  else if negb (bool_decide (is_Some (event t)))
          && negb (truthy (guard t)) && negb (truthy (to_state t))
  then Raises (ValueError (InternalEventlessGuardless t))
  else Returns ().

(** C2 and C3, for a history state. *)
Definition check_history (m : StateMachine) (name : string) (state : State)
  : outcome unit :=
  match state with
  | HistoryState _ _ initial _ =>
      pn ← parent_lookup m name;
      ps ← states_lookup m pn;
      if negb (is_compound ps)
      then Raises (ValueError (HistoryParentNotCompound state))
      else
        match initial with
        | Some i =>
            if truthy (Some i) then
              pi ← parent_lookup m i;
              pn' ← parent_lookup m name;
              if negb (bool_decide (pi = pn')) then
                pn'' ← parent_lookup m name;
                Raises (ValueError (HistoryInitialNotSibling state pn''))
              else Returns ()
            else Returns ()
        | None => Returns ()
        end
  | _ => Returns ()
  end.

(** C5, for a composite state. *)
Definition check_composite (state : State) : outcome unit :=
  match state_children state with
  | Some ch =>
      if length ch <=? 0
      then Raises (ValueError (EmptyComposite state))
      else Returns ()
  | None => Returns ()
  end.

(** C4, for a compound state. *)
Definition check_compound (m : StateMachine) (name : string) (state : State)
  : outcome unit :=
  match state with
  | CompoundState _ initial _ _ _ _ =>
      pn ← parent_lookup m name;
      if truthy pn then
        pi ← parent_lookup m initial;
        if negb (bool_decide (pi = Some name))
        then Raises (ValueError (InitialNotChild state))
        else Returns ()
      else Returns ()
  | _ => Returns ()
  end.

(** The body of the loop over [self.states.items()]. *)
Definition check_state (m : StateMachine) (item : string * State)
  : outcome unit :=
  let '(name, state) := item in
  check_history m name state;;
  check_composite state;;
  check_compound m name state.

(** A [for] loop whose body may raise. *)
Fixpoint for_each {A} (body : A → outcome unit) (l : list A)
  : outcome unit :=
  match l with
  | [] => Returns ()
  | x :: l' => body x;; for_each body l'
  end.

Definition valid (m : StateMachine) : outcome bool :=
  for_each (check_transition m) (transitions m);;
  for_each (check_state m) (states m);;
  Returns true.

(** ** Specification-side notions over the parent index *)

(** [parent_chain m s l]: the parents of [s], from its own parent up to a
    top-level state (one whose parent is [None]), are [l]. A derivation is
    finite, so the chain does not loop. *)
Inductive parent_chain (m : StateMachine) : string → list string → Prop :=
| chain_top s :
    parent m !! s = Some None → parent_chain m s []
| chain_step s p l :
    parent m !! s = Some (Some p) → parent_chain m p l →
    parent_chain m s (p :: l).

(** The [n]-fold parent of [s]; [None] once the chain has left the
    registered states. *)
Fixpoint nth_parent (m : StateMachine) (n : nat) (s : string)
  : option string :=
  match n with
  | 0 => Some s
  | S n' => p ← nth_parent m n' s; mjoin (parent m !! p)
  end.

(** What the loop of [ancestors_for] walks: it stops at the first parent
    that is false as a condition, [None] or the empty name. *)
Inductive walked (m : StateMachine) : option string → list string → Prop :=
| walked_stop v : truthy v = false → walked m v []
| walked_step p v l :
    truthy (Some p) = true → parent m !! p = Some v → walked m v l →
    walked m (Some p) (p :: l).

(** The part of a chain before its first empty name. *)
Fixpoint live_prefix (l : list string) : list string :=
  match l with
  | [] => []
  | p :: l' => if truthy (Some p) then p :: live_prefix l' else []
  end.

(** The machine once the first two statements of [register_state] have
    written [states] and [parent]. *)
Definition registered (m : StateMachine) (state : State)
    (pn : option string) : StateMachine :=
  set_parent <[state_name state := pn]>
    (set_states (dict_set (state_name state) state) m).

(** ** Specification-side notions over the children lists *)

(** [child_of m c p]: [c] is listed among the children of the state
    registered under [p]. *)
Definition child_of (m : StateMachine) (c p : string) : Prop :=
  ∃ st, dict_get p (states m) = Some st ∧ c ∈ children_of st.

(** [descendant m d s]: [d] is a, possibly indirect, descendant of [s]. *)
Inductive descendant (m : StateMachine) : string → string → Prop :=
| descendant_child d s : child_of m d s → descendant m d s
| descendant_step d c s :
    child_of m c s → descendant m d c → descendant m d s.

(** [subtree_size m s n]: the states below [s] unfold into a finite tree
    of [n] nodes, [s] included: [s] and all the states below it are
    registered, and no state is below itself. *)
Inductive subtree_size (m : StateMachine) : string → nat → Prop :=
| subtree_node s st ns :
    dict_get s (states m) = Some st →
    Forall2 (subtree_size m) (children_of st) ns →
    subtree_size m s (S (sum_list ns)).

(** The test [leaf_for] applies to a state, on the descendants computed
    with the given fuel. *)
Definition is_leaf_in (fuel : nat) (m : StateMachine)
    (states_ : list string) (state : string) : bool :=
  match descendants_for fuel m state with
  | Returns ds => keep_after states_ ds
  | _ => false
  end.

(** The children list found under a name: that of the state registered
    there, empty when there is none. *)
Definition kids (m : StateMachine) (p : string) : list string :=
  match dict_get p (states m) with
  | Some st => children_of st
  | None => []
  end.

(** The children of the states of a list, in order: the next generation
    below them. *)
Definition next_generation (m : StateMachine) (g : list string)
  : list string :=
  concat (map (kids m) g).

(** The [n]-th generation below the states of [g]; [g] itself for 0. *)
Fixpoint generation (m : StateMachine) (n : nat) (g : list string)
  : list string :=
  match n with
  | 0 => g
  | S n' => generation m n' (next_generation m g)
  end.

(** The first [n] generations below the states of [g], one after the
    other: level order. *)
Fixpoint generations (m : StateMachine) (n : nat) (g : list string)
  : list string :=
  match n with
  | 0 => []
  | S n' => next_generation m g ++ generations m n' (next_generation m g)
  end.

(** ** Specification-side notions for the registry as a whole *)

(** The two dictionaries have the same keys. *)
Definition keys_agree (m : StateMachine) : Prop :=
  ∀ k, is_Some (dict_get k (states m)) ↔ is_Some (parent m !! k).

(** The children lists and the parent index say the same: a state is
    listed under a composite exactly when the index names that composite
    as its parent, and is a top-level child exactly when its parent is
    [None]. *)
Definition consistent (m : StateMachine) : Prop :=
  (∀ c p, child_of m c p ↔ parent m !! c = Some (Some p))
  ∧ (∀ c, c ∈ children m ↔ parent m !! c = Some None).

(** Machines built top-down: from [new_machine], by registering freshly
    constructed states (no children yet) under fresh names, each at top
    level or under a composite state registered before, and by
    registering transitions. *)
Inductive built : StateMachine → Prop :=
| built_new name initial on_entry :
    built (new_machine name initial on_entry)
| built_state m state p m' :
    built m →
    parent m !! state_name state = None →
    dict_get (state_name state) (states m) = None →
    children_of state = [] →
    (parent_name p = None
     ∨ ∃ key ps, parent_name p = Some key
                 ∧ dict_get key (states m) = Some ps ∧ is_composite ps) →
    register_state state p m = (Returns (), m') →
    built m'
| built_transition m t :
    built m → built (snd (register_transition t m)).

(** An executable test that a list of registrations builds top-down
    from the machine [m], as [built] asks. *)
Fixpoint top_down (m : StateMachine) (rs : list registration) : bool :=
  match rs with
  | [] => true
  | RegState st p :: rs' =>
      bool_decide (parent m !! state_name st = None)
      && match dict_get (state_name st) (states m) with
         | None => true
         | Some _ => false
         end
      && bool_decide (children_of st = [])
      && match parent_name p with
         | None => true
         | Some key =>
             match dict_get key (states m) with
             | Some ps => is_composite ps
             | None => false
             end
         end
      && match register_state st p m with
         | (Returns _, m') => top_down m' rs'
         | _ => false
         end
  | RegTransition t :: rs' => top_down (snd (register_transition t m)) rs'
  end.

(** Every transition held by a registered state has that state as its
    source and is in the machine's own list. *)
Definition sources_recorded (m : StateMachine) : Prop :=
  ∀ name st ts t,
    dict_get name (states m) = Some st → state_transitions st = Some ts →
    t ∈ ts → from_state t = name ∧ t ∈ transitions m.

(** A registration of a freshly constructed state object: it holds no
    transition yet. Registrations of transitions are not constrained. *)
Definition fresh_object (r : registration) : Prop :=
  match r with
  | RegState st _ => ∀ ts, state_transitions st = Some ts → ts = []
  | RegTransition _ => True
  end.

(** ** Specification-side notions for validation *)

Definition compound_initial (s : State) : option string :=
  match s with
  | CompoundState _ i _ _ _ _ => Some i
  | _ => None
  end.

Definition is_history (s : State) : bool :=
  match s with HistoryState _ _ _ _ => true | _ => false end.

Definition history_initial (s : State) : option string :=
  match s with
  | HistoryState _ _ i _ => i
  | _ => None
  end.


(** [refers_to_unknown_state m t]: the source of [t] is not registered, or
    its target is a non-empty name that is not registered. *)
Definition refers_to_unknown_state (m : StateMachine) (t : Transition)
  : Prop :=
  dict_get (from_state t) (states m) = None
  ∨ ∃ dst, to_state t = Some dst ∧ dst ≠ ""
           ∧ dict_get dst (states m) = None.

(** [internal_eventless_guardless t]: [t] has no event, no guard (or the
    empty one) and no target (or the empty one). *)
Definition internal_eventless_guardless (t : Transition) : Prop :=
  event t = None ∧ truthy (guard t) = false ∧ truthy (to_state t) = false.

(** ** Example machines, built by registration *)

(** [root] (compound, initial [A]) with the basic states [A] and [B] and a
    transition from [A] to [B] on [go]. *)
Definition ex_root_A : StateMachine :=
  build
    [RegState (CompoundState "root" "A" [] None None []) (ParentName None);
     RegState (BasicState "A" [] None None) (ParentName (Some "root"));
     RegState (BasicState "B" [] None None) (ParentName (Some "root"));
     RegTransition
       (mkTransition "A" (Some "B") (Some (mkEvent "go" None)) None None)]
    (new_machine "m" "root" None).

(** The same machine with an orthogonal state [P] under [root], whose two
    regions [R1] and [R2] are compound states with one basic child each. *)
Definition ex_regions : StateMachine :=
  build
    [RegState (OrthogonalState "P" [] None None []) (ParentName (Some "root"));
     RegState (CompoundState "R1" "X1" [] None None [])
       (ParentState (OrthogonalState "P" [] None None []));
     RegState (CompoundState "R2" "X2" [] None None []) (ParentName (Some "P"));
     RegState (BasicState "X1" [] None None) (ParentName (Some "R1"));
     RegState (BasicState "X2" [] None None) (ParentName (Some "R2"))]
    ex_root_A.

(** A top-level compound state whose name is the empty string, with one
    basic child [A]. *)
Definition ex_empty_name : StateMachine :=
  build
    [RegState (CompoundState "" "A" [] None None []) (ParentName None);
     RegState (BasicState "A" [] None None) (ParentName (Some ""))]
    (new_machine "m" "" None).

(** A transition on the event [go]. *)
Definition tr_go (src dst : string) : Transition :=
  mkTransition src (Some dst) (Some (mkEvent "go" None)) None None.

(** [ex_root_A] with a final state [F] under [root]. *)
Definition ex_final : StateMachine :=
  build [RegState (FinalState "F" None None) (ParentName (Some "root"))]
    ex_root_A.


(** [root] with a compound child [C] that has one child [X] but names
    [root] as its [initial]; and a second machine whose only compound state
    is at top level and names an unregistered [initial]. *)
Definition ex_bad_initial : StateMachine :=
  build
    [RegState (CompoundState "root" "C" [] None None []) (ParentName None);
     RegState (CompoundState "C" "root" [] None None [])
       (ParentName (Some "root"));
     RegState (BasicState "X" [] None None) (ParentName (Some "C"))]
    (new_machine "m" "root" None).

Definition ex_root_ghost : StateMachine :=
  build
    [RegState (CompoundState "root" "ghost" [] None None [])
       (ParentName None);
     RegState (BasicState "A" [] None None) (ParentName (Some "root"))]
    (new_machine "m" "root" None).


(** [ex_bad_initial] with three transitions from [X]: one to [root], one
    to the unregistered [Z], and one without event, guard and target. *)
Definition ex_bad_transitions : StateMachine :=
  build
    [RegTransition (tr_go "X" "root");
     RegTransition (tr_go "X" "Z");
     RegTransition (mkTransition "X" None None None None)]
    ex_bad_initial.

(** [ex_root_A] with a history state [H] registered at top level. *)
Definition ex_top_history : StateMachine :=
  build [RegState (HistoryState "H" [None] None false) (ParentName None)]
    ex_root_A.

(** A composite state that lists a child [ghost] which is not registered:
    the child was added to the state object before its registration. *)
Definition ex_dangling : StateMachine :=
  build
    [RegState (CompoundState "root" "ghost" [] None None ["ghost"])
       (ParentName None)]
    (new_machine "m" "root" None).

(** An orthogonal state registered with its own name as parent. *)
Definition ex_self_parent : StateMachine :=
  build
    [RegState (OrthogonalState "S" [] None None []) (ParentName (Some "S"))]
    (new_machine "m" "S" None).

(** [climbs m s a]: [a] is reached from [s] by one or more steps of the
    parent index through non-empty names, the steps the loop of
    [ancestors_for] takes. *)
Inductive climbs (m : StateMachine) : string → string → Prop :=
| climbs_one s p :
    parent m !! s = Some (Some p) → p ≠ "" → climbs m s p
| climbs_more s p a :
    parent m !! s = Some (Some p) → p ≠ "" → climbs m p a → climbs m s a.

(** [ex_regions] with a shallow history state [H] in the region [R1],
    whose default is [X1]. *)
Definition ex_history : StateMachine :=
  build
    [RegState (HistoryState "H" [Some "X1"] (Some "X1") false)
       (ParentName (Some "R1"))]
    ex_regions.

(** [root] with a nested compound state [in], which has a basic child
    [deep] and a history state [H] whose default is [deep]. *)
Definition ex_nested : StateMachine :=
  build
    [RegState (CompoundState "root" "in" [] None None []) (ParentName None);
     RegState (CompoundState "in" "deep" [] None None [])
       (ParentName (Some "root"));
     RegState (BasicState "deep" [] None None) (ParentName (Some "in"));
     RegState (HistoryState "H" [Some "deep"] (Some "deep") false)
       (ParentName (Some "in"))]
    (new_machine "m" "root" None).

(** ** The testing helpers of [sismic/testing.py]

    The helpers scan the step records an interpreter returns. *)

Module testing.

(** Modelled from the spec: the step record [MacroStep] of
    [sismic.model], which is not among the sources; the spec gives its
    shape: the names of the states entered and exited during the step,
    the events sent and the transitions processed. *)
Record MacroStep := mkMacroStep {
  entered_states : list string;
  exited_states : list string;
  sent_events : list Event;
  transitions : list Transition
}.

(** [MacroSteps = Union[MacroStep, List[MacroStep]]] *)
Inductive MacroSteps :=
| OneStep (step : MacroStep)
| StepList (steps : list MacroStep).

(** [steps if isinstance(steps, list) else [steps]] *)
Definition as_list (steps : MacroSteps) : list MacroStep :=
  match steps with
  | OneStep step => [step]
  | StepList l => l
  end.

(** A [for step in steps] loop that returns [True] at the first step
    passing [test], and [False] when it ends. *)
Fixpoint any_step (test : MacroStep → bool) (steps : list MacroStep)
  : bool :=
  match steps with
  | [] => false
  | step :: rest => if test step then true else any_step test rest
  end.

Definition state_is_entered (steps : MacroSteps) (name : string) : bool :=
  any_step (λ step, bool_decide (name ∈ entered_states step))
    (as_list steps).

Definition state_is_exited (steps : MacroSteps) (name : string) : bool :=
  any_step (λ step, bool_decide (name ∈ exited_states step))
    (as_list steps).

(** [name in interpreter.configuration], on the configuration. *)
Definition state_is_active (configuration : list string) (name : string)
  : bool :=
  bool_decide (name ∈ configuration).

Section parameters.
(** The attributes of an event and the equality of transitions belong to
    classes of [sismic.model] that are not among the sources; they are
    parameters here. [getattr event key] is [getattr(event, key, None)],
    with [None] for Python's [None]. *)
Context {value : Type} `{EqDecision value}.
Context (getattr : Event → string → option value).
Context (transition_eq : Transition → Transition → bool).

(** The loop over [parameters.items()], with its [break]. *)
Fixpoint matching_parameters (event : Event)
    (parameters : list (string * option value)) : bool :=
  match parameters with
  | [] => true
  | (key, v) :: rest =>
      if bool_decide (getattr event key ≠ v) then false
      else matching_parameters event rest
  end.

(** The loop over [step.sent_events]: [True] as soon as an event
    matches. *)
Fixpoint any_event (name : option string)
    (parameters : list (string * option value)) (events : list Event)
  : bool :=
  match events with
  | [] => false
  | event :: rest =>
      if match name with
         | None => true
         | Some n => bool_decide (ev_name event = n)
         end
      then
        if matching_parameters event parameters then true
        else any_event name parameters rest
      else any_event name parameters rest
  end.

Definition event_is_fired (steps : MacroSteps) (name : option string)
    (parameters : option (list (string * option value))) : bool :=
  any_step (λ step, any_event name (default [] parameters)
                      (sent_events step))
    (as_list steps).

(** [transition in step.transitions] *)
Definition transition_in (transition : Transition)
    (l : list Transition) : bool :=
  existsb (transition_eq transition) l.

Definition transition_is_processed (steps : MacroSteps)
    (transition : option Transition) : bool :=
  match transition with
  | None =>
      any_step (λ step, bool_decide (0 < length (transitions step)))
        (as_list steps)
  | Some t =>
      any_step (λ step, transition_in t (transitions step)) (as_list steps)
  end.
End parameters.

End testing.

(** * Properties *)

(** ** Dictionaries *)

Section dict_facts.
Context {V : Type}.
Implicit Types (d : list (string * V)) (v : V).

Lemma dict_get_set_eq k v d : dict_get k (dict_set k v d) = Some v.
Proof.
  induction d as [|[k' v'] d IH]; simpl.
  - by rewrite decide_True.
  - destruct (decide (k = k')) as [->|Hne]; simpl.
    + by rewrite decide_True.
    + by rewrite decide_False.
Qed.

Lemma dict_get_set_ne k k' v d :
  k ≠ k' → dict_get k' (dict_set k v d) = dict_get k' d.
Proof.
  intros Hne. induction d as [|[k0 v0] d IH]; simpl.
  - by rewrite decide_False.
  - destruct (decide (k = k0)) as [->|Hne0]; simpl.
    + by rewrite !decide_False.
    + by rewrite IH.
Qed.

(** A new key goes last; an existing one is updated where it stands. *)
Lemma dict_set_fresh k v d :
  dict_get k d = None → dict_set k v d = d ++ [(k, v)].
Proof.
  induction d as [|[k' v'] d IH]; simpl; [done|].
  destruct (decide (k = k')) as [->|Hne]; [done|].
  intros Hd. by rewrite IH.
Qed.

Lemma dict_set_present k v d d' :
  is_Some (dict_get k d) →
  dict_set k v (d ++ d') = dict_set k v d ++ d'
  ∧ length (dict_set k v d) = length d.
Proof.
  induction d as [|[k' v'] d IH]; simpl; [by intros [? ?]|].
  destruct (decide (k = k')) as [->|Hne]; [done|].
  intros Hd. destruct (IH Hd) as [H1 H2]. simpl. by rewrite H1, H2.
Qed.

Lemma dict_get_Some_elem k v d : dict_get k d = Some v → (k, v) ∈ d.
Proof.
  induction d as [|[k' v'] d IH]; simpl; [done|].
  destruct (decide (k = k')) as [->|Hne].
  - intros [= ->]. apply list_elem_of_here.
  - intros H. apply list_elem_of_further. auto.
Qed.
End dict_facts.

(** ** Outcomes *)

Lemma obind_Returns {A B} (x : outcome A) (f : A → outcome B) b :
  x ≫= f = Returns b ↔ ∃ a, x = Returns a ∧ f a = Returns b.
Proof.
  destruct x as [a| |]; simpl; split.
  - eauto.
  - by intros (? & [= ->] & ?).
  - done.
  - by intros (? & ? & ?).
  - done.
  - by intros (? & ? & ?).
Qed.

(** ** Ancestors *)

Arguments truthy : simpl never.

Section ancestors.
Context (m : StateMachine).

Lemma ancestors_loop_unfold fuel acc v :
  ancestors_loop fuel m acc v =
  if truthy v then
    match v, fuel with
    | Some p, S fuel' =>
        parent' ← parent_lookup m p;
        ancestors_loop fuel' m (acc ++ [p]) parent'
    | _, _ => OutOfFuel
    end
  else Returns acc.
Proof.
  destruct fuel, v as [p|]; cbn [ancestors_loop]; try done;
    by destruct (truthy (Some p)).
Qed.

Lemma ancestors_loop_acc fuel acc v :
  ancestors_loop fuel m acc v
  = l ← ancestors_loop fuel m [] v; Returns (acc ++ l).
Proof.
  revert acc v. induction fuel as [|fuel IH]; intros acc v;
    rewrite !(ancestors_loop_unfold _ _ v);
    (destruct (truthy v); [|by simpl; rewrite app_nil_r]);
    destruct v as [p|]; try done.
  destruct (parent_lookup m p) as [v| |]; simpl; [|done..].
  rewrite (IH (acc ++ [p])), (IH [p]).
  destruct (ancestors_loop fuel m [] v); simpl; [|done..].
  by rewrite <-app_assoc.
Qed.

Lemma parent_lookup_Returns k v :
  parent_lookup m k = Returns v ↔ parent m !! k = Some v.
Proof.
  unfold parent_lookup. destruct (parent m !! k); split; congruence.
Qed.

Lemma ancestors_loop_walked fuel v l :
  ancestors_loop fuel m [] v = Returns l → walked m v l.
Proof.
  revert v l. induction fuel as [|fuel IH]; intros v l;
    rewrite ancestors_loop_unfold; destruct (truthy v) eqn:Htv;
    try (intros [= <-]; by constructor); destruct v as [p|]; try done.
  intros (v & Hv%parent_lookup_Returns & Hl)%obind_Returns.
  rewrite ancestors_loop_acc in Hl.
  apply obind_Returns in Hl as (l' & Hl' & [= <-]).
  econstructor; eauto.
Qed.

Lemma walked_ancestors_loop v l fuel :
  walked m v l → length l ≤ fuel →
  ancestors_loop fuel m [] v = Returns l.
Proof.
  intros Hw. revert fuel.
  induction Hw as [v Hv|p v l Hp Hv Hw IH]; intros fuel Hfuel;
    rewrite ancestors_loop_unfold.
  - by rewrite Hv.
  - destruct fuel as [|fuel]; simpl in Hfuel; [lia|]. rewrite Hp.
    apply parent_lookup_Returns in Hv. rewrite Hv. simpl.
    rewrite ancestors_loop_acc, IH by lia. done.
Qed.

Lemma walked_functional v l1 l2 : walked m v l1 → walked m v l2 → l1 = l2.
Proof.
  intros Hw. revert l2.
  induction Hw as [v Hv|p v l Hp Hv Hw IH]; intros l2 Hw2.
  - inversion Hw2; subst; [done|congruence].
  - inversion Hw2; subst; [congruence|].
    f_equal. apply IH. congruence.
Qed.

(** From an element of the walk onwards, the walk is that element's. *)
Lemma walked_suffix v pre x suf :
  walked m v (pre ++ x :: suf) →
  ∃ v', parent m !! x = Some v' ∧ walked m v' suf.
Proof.
  revert v. induction pre as [|y pre IH]; intros v Hw; simpl in *.
  - inversion Hw; subst. eauto.
  - inversion Hw; subst. eauto.
Qed.

Lemma walked_NoDup v l : walked m v l → NoDup l.
Proof.
  induction 1 as [v Hv|p v l Hp Hv Hw IH]; [constructor|].
  constructor; [|done].
  intros (pre & suf & ->)%list_elem_of_split.
  destruct (walked_suffix _ _ _ _ Hw) as (v' & Hv' & Hsuf).
  assert (v' = v) as -> by congruence.
  pose proof (walked_functional _ _ _ Hw Hsuf) as Heq.
  apply (f_equal length) in Heq. rewrite length_app in Heq.
  simpl in Heq. lia.
Qed.

Lemma parent_chain_walked s l :
  parent_chain m s l →
  ∃ v, parent m !! s = Some v ∧ walked m v (live_prefix l).
Proof.
  induction 1 as [s Hs|s p l Hs Hc (v & Hv & Hw)].
  - exists None. split; [done|]. by constructor.
  - exists (Some p). split; [done|]. cbn [live_prefix].
    destruct (truthy (Some p)) eqn:Hp; [|by constructor].
    econstructor; eauto.
Qed.

Lemma live_prefix_length l : length (live_prefix l) ≤ length l.
Proof.
  induction l as [|p l IH]; simpl; [done|].
  destruct (truthy (Some p)); simpl; lia.
Qed.

Lemma live_prefix_id l : "" ∉ l → live_prefix l = l.
Proof.
  induction l as [|p l IH]; [done|].
  rewrite not_elem_of_cons. intros [Hne Hl]. simpl.
  assert (truthy (Some p) = true) as ->.
  { unfold truthy. by rewrite bool_decide_false. }
  by rewrite IH.
Qed.

Lemma ancestors_for_walked fuel s l :
  ancestors_for fuel m s = Returns l ↔
  ∃ v, parent m !! s = Some v ∧ ancestors_loop fuel m [] v = Returns l.
Proof.
  unfold ancestors_for, parent_lookup.
  destruct (parent m !! s) as [v|]; simpl; split.
  - eauto.
  - by intros (? & [= <-] & ?).
  - done.
  - by intros (? & ? & ?).
Qed.

(** On a finite chain the loop ends, within as many rounds as the chain
    is long, and returns the chain up to its first empty name. *)
Lemma ancestors_for_chain s l fuel :
  parent_chain m s l → length l ≤ fuel →
  ancestors_for fuel m s = Returns (live_prefix l).
Proof.
  intros (v & Hv & Hw)%parent_chain_walked Hfuel.
  apply ancestors_for_walked. exists v. split; [done|].
  apply walked_ancestors_loop; [done|].
  pose proof (live_prefix_length l). lia.
Qed.

Lemma ancestors_for_chain_nonempty s l fuel :
  parent_chain m s l → "" ∉ l → length l ≤ fuel →
  ancestors_for fuel m s = Returns l.
Proof.
  intros Hc Hne Hfuel. rewrite (ancestors_for_chain s l) by done.
  by rewrite live_prefix_id.
Qed.

Lemma parent_chain_functional s l1 l2 :
  parent_chain m s l1 → parent_chain m s l2 → l1 = l2.
Proof.
  intros Hc. revert l2.
  induction Hc as [s Hs|s p l Hs Hc IH]; intros l2 Hc2.
  - inversion Hc2; subst; [done|congruence].
  - inversion Hc2; subst; [congruence|].
    assert (p0 = p) as -> by congruence. f_equal. by apply IH.
Qed.

Lemma parent_chain_suffix s pre x suf :
  parent_chain m s (pre ++ x :: suf) → parent_chain m x suf.
Proof.
  revert s. induction pre as [|y pre IH]; intros s Hc; simpl in *.
  - by inversion Hc; subst.
  - inversion Hc; subst. eauto.
Qed.

Lemma parent_chain_not_self s l : parent_chain m s l → s ∉ l.
Proof.
  intros Hc (pre & suf & ->)%list_elem_of_split.
  pose proof (parent_chain_suffix _ _ _ _ Hc) as Hsuf.
  pose proof (parent_chain_functional _ _ _ Hc Hsuf) as Heq.
  apply (f_equal length) in Heq. rewrite length_app in Heq.
  simpl in Heq. lia.
Qed.

Lemma parent_chain_last s l x :
  parent_chain m s l → last l = Some x → parent m !! x = Some None.
Proof.
  induction 1 as [s Hs|s p l Hs Hc IH]; [done|].
  destruct l as [|q l]; [|by apply IH].
  intros [= <-]. by inversion Hc.
Qed.

Lemma ancestors_for_agree f1 f2 s l1 l2 :
  ancestors_for f1 m s = Returns l1 → ancestors_for f2 m s = Returns l2 →
  l1 = l2.
Proof.
  intros (v1 & Hv1 & H1)%ancestors_for_walked
         (v2 & Hv2 & H2)%ancestors_for_walked.
  assert (v2 = v1) as -> by congruence.
  eapply walked_functional; eauto using ancestors_loop_walked.
Qed.

Lemma parent_chain_nth s l :
  parent_chain m s l →
  (∀ i x, l !! i = Some x → nth_parent m (S i) s = Some x)
  ∧ nth_parent m (S (length l)) s = None.
Proof.
  assert (Hshift : ∀ n s p, parent m !! s = Some (Some p) →
            nth_parent m (S n) s = nth_parent m n p).
  { induction n as [|n IHn]; intros s0 p0 Hs0.
    - simpl. by rewrite Hs0.
    - change (nth_parent m (S (S n)) s0)
        with (p ← nth_parent m (S n) s0; mjoin (parent m !! p)).
      by rewrite (IHn _ _ Hs0). }
  induction 1 as [s Hs|s p l Hs Hc [IH1 IH2]].
  - split; [done|]. simpl. by rewrite Hs.
  - split.
    + intros [|i] x Hx; simpl in Hx.
      * injection Hx as <-. simpl. by rewrite Hs.
      * rewrite (Hshift _ _ _ Hs). by apply IH1.
    + simpl length. by rewrite (Hshift _ _ _ Hs).
Qed.
End ancestors.

(** ** Least common ancestor *)

Section lca.
Context (m : StateMachine).

Lemma first_common_Some l1 l2 x :
  first_common l1 l2 = Some x ↔
  ∃ pre suf, l1 = pre ++ x :: suf ∧ x ∈ l2 ∧ ∀ y, y ∈ pre → y ∉ l2.
Proof.
  induction l1 as [|a l1 IH]; simpl.
  - split; [done|]. by intros ([|??] & ? & ? & _).
  - case_bool_decide as Ha.
    + split.
      * intros [= ->]. exists [], l1. split_and!; [done..|].
        by intros y ?%elem_of_nil.
      * intros ([|b pre] & suf & Heq & Hx & Hpre); simplify_eq/=; [done|].
        destruct (Hpre b); [left|done].
    + rewrite IH. split.
      * intros (pre & suf & -> & Hx & Hpre). exists (a :: pre), suf.
        split_and!; [done..|]. by intros y [->|?]%elem_of_cons; auto.
      * intros ([|b pre] & suf & Heq & Hx & Hpre); simplify_eq/=; [done|].
        exists pre, suf. split_and!; [done..|].
        intros y Hy. apply Hpre. by right.
Qed.

Lemma first_common_None l1 l2 :
  first_common l1 l2 = None ↔ ∀ y, y ∈ l1 → y ∉ l2.
Proof.
  induction l1 as [|a l1 IH]; simpl.
  - split; [|done]. by intros _ y ?%elem_of_nil.
  - case_bool_decide as Ha.
    + split; [done|]. intros H. destruct (H a); [left|done].
    + rewrite IH. split.
      * by intros H y [->|?]%elem_of_cons; auto.
      * intros H y Hy. apply H. by right.
Qed.

(** The first ancestor of one state that is an ancestor of the other is
    found from either side: beyond it the two walks coincide, and before
    it no walk can meet the other one without repeating a state. *)
Lemma first_common_walked v1 v2 l1 l2 x :
  walked m v1 l1 → walked m v2 l2 →
  first_common l1 l2 = Some x → first_common l2 l1 = Some x.
Proof.
  intros Hw1 Hw2 (pre1 & suf1 & -> & Hx & Hpre1)%first_common_Some.
  apply list_elem_of_split in Hx as (pre2 & suf2 & ->).
  destruct (walked_suffix _ _ _ _ _ Hw1) as (u1 & Hu1 & Hs1).
  destruct (walked_suffix _ _ _ _ _ Hw2) as (u2 & Hu2 & Hs2).
  assert (u2 = u1) as -> by congruence.
  assert (suf2 = suf1) as -> by eauto using walked_functional.
  apply first_common_Some. exists pre2, suf1. split_and!; [done| |].
  - apply elem_of_app. right. left.
  - intros y Hy [Hy1|Hy1]%elem_of_app.
    + apply (Hpre1 y Hy1). apply elem_of_app. by left.
    + apply walked_NoDup, NoDup_app in Hw2 as (_ & Hdisj & _).
      by apply (Hdisj y Hy).
Qed.

Lemma first_common_sym v1 v2 l1 l2 :
  walked m v1 l1 → walked m v2 l2 →
  first_common l1 l2 = first_common l2 l1.
Proof.
  intros Hw1 Hw2.
  destruct (first_common l1 l2) as [x|] eqn:H12.
  - symmetry. eauto using first_common_walked.
  - destruct (first_common l2 l1) as [y|] eqn:H21; [|done].
    rewrite (first_common_walked _ _ _ _ _ Hw2 Hw1 H21) in H12. done.
Qed.

Lemma least_common_ancestor_Returns fuel s1 s2 r :
  least_common_ancestor fuel m s1 s2 = Returns r ↔
  ∃ l1 l2, ancestors_for fuel m s1 = Returns l1
           ∧ ancestors_for fuel m s2 = Returns l2
           ∧ r = first_common l1 l2.
Proof.
  unfold least_common_ancestor. rewrite obind_Returns. split.
  - intros (l1 & H1 & (l2 & H2 & [= <-])%obind_Returns). eauto.
  - intros (l1 & l2 & H1 & H2 & ->). exists l1. split; [done|].
    apply obind_Returns. eauto.
Qed.

(** The result does not depend on the fuel that sufficed. *)
Lemma least_common_ancestor_agree f1 f2 s1 s2 r1 r2 :
  least_common_ancestor f1 m s1 s2 = Returns r1 →
  least_common_ancestor f2 m s1 s2 = Returns r2 → r1 = r2.
Proof.
  intros (l1 & l2 & H1 & H2 & ->)%least_common_ancestor_Returns
         (k1 & k2 & K1 & K2 & ->)%least_common_ancestor_Returns.
  by rewrite (ancestors_for_agree m _ _ _ _ _ H1 K1),
             (ancestors_for_agree m _ _ _ _ _ H2 K2).
Qed.

(** With a state and one of its proper descendants, the scan of the
    state's ancestors stops at once, on the state's own parent. *)
Lemma first_common_suffix pre x suf :
  first_common suf (pre ++ x :: suf) = head suf.
Proof.
  destruct suf as [|y suf]; [done|]. simpl.
  rewrite bool_decide_true; [done|].
  apply elem_of_app. right. right. left.
Qed.

Lemma parent_chain_head s l :
  parent_chain m s l → parent m !! s = Some (head l).
Proof. by destruct 1. Qed.
End lca.

(** ** Ancestors, depth and least common ancestor: the main results *)

(** C4 (as stated, refuted): in [ex_empty_name] the parent chain of [A] is
    the one state named by the empty string, a top-level state, yet
    [ancestors_for] never returns that chain: the loop condition takes the
    empty name for an absent parent. *)
Lemma ancestors_for_empty_name_cut :
  parent_chain ex_empty_name "A" [""]
  ∧ valid ex_empty_name = Returns true
  ∧ ancestors_for 1 ex_empty_name "A" = Returns []
  ∧ ¬ ∃ fuel, ancestors_for fuel ex_empty_name "A" = Returns [""].
Proof.
  split_and!.
  - apply chain_step; [by vm_compute|]. apply chain_top. by vm_compute.
  - by vm_compute.
  - by vm_compute.
  - intros [fuel H].
    assert (ancestors_for 1 ex_empty_name "A" = Returns []) as H0
      by by vm_compute.
    by pose proof (ancestors_for_agree _ _ _ _ _ _ H H0).
Qed.

(** C4 (amended): for a state [s] whose parent chain [l] is finite, ends
    at a top-level state and contains no state with an empty name,
    [ancestors_for s] terminates (within [length l] rounds of its loop)
    and returns exactly [l]: element [i] is the [(i+1)]-fold parent of
    [s], the last element is a top-level state, and [s] is not a member. *)
Theorem ancestors_for_parent_chain m s l fuel :
  parent_chain m s l → "" ∉ l → length l ≤ fuel →
  ancestors_for fuel m s = Returns l
  ∧ (∀ i x, l !! i = Some x → nth_parent m (S i) s = Some x)
  ∧ (∀ x, last l = Some x → parent m !! x = Some None)
  ∧ s ∉ l.
Proof.
  intros Hc Hne Hfuel. split_and!.
  - by apply ancestors_for_chain_nonempty.
  - by apply parent_chain_nth.
  - intros x. by apply (parent_chain_last m s).
  - by apply (parent_chain_not_self m).
Qed.

Lemma ancestors_for_parent_chain_witness :
  ancestors_for 3 ex_regions "X1" = Returns ["R1"; "P"; "root"]
  ∧ "X1" ∉ ["R1"; "P"; "root"].
Proof.
  assert (parent_chain ex_regions "X1" ["R1"; "P"; "root"]) as Hc.
  { repeat (apply chain_step; [by vm_compute|]). apply chain_top.
    by vm_compute. }
  destruct (ancestors_for_parent_chain ex_regions "X1" _ 3 Hc)
    as (H1 & _ & _ & H4); [|simpl; lia|done].
  rewrite !elem_of_cons, elem_of_nil. by intros [|[|[|]]].
Defined.

(** C3: for a state [s] with a finite parent chain ending at a top-level
    state, [depth_of s] returns the length of [ancestors_for s] plus one;
    a root-level state has depth 1; [depth_of None] is 0. *)
Theorem depth_of_ancestors m s l fuel :
  parent_chain m s l → length l ≤ fuel →
  (∃ ancestors, ancestors_for fuel m s = Returns ancestors
                ∧ depth_of fuel m (Some s) = Returns (length ancestors + 1))
  ∧ (parent m !! s = Some None → depth_of fuel m (Some s) = Returns 1)
  ∧ depth_of fuel m None = Returns 0.
Proof.
  intros Hc Hfuel. split_and!; [| |done].
  - exists (live_prefix l). unfold depth_of.
    by rewrite (ancestors_for_chain m s l fuel Hc Hfuel).
  - intros Hs. unfold depth_of, ancestors_for, parent_lookup.
    rewrite Hs. simpl. by rewrite ancestors_loop_unfold.
Qed.

Lemma depth_of_ancestors_witness :
  depth_of 3 ex_regions (Some "X1") = Returns 4
  ∧ depth_of 0 ex_regions (Some "root") = Returns 1
  ∧ depth_of 0 ex_regions None = Returns 0.
Proof.
  assert (parent_chain ex_regions "X1" ["R1"; "P"; "root"]) as Hc.
  { repeat (apply chain_step; [by vm_compute|]). apply chain_top.
    by vm_compute. }
  assert (parent_chain ex_regions "root" []) as Hr.
  { apply chain_top. by vm_compute. }
  destruct (depth_of_ancestors ex_regions "X1" _ 3 Hc)
    as ((anc & Ha & Hd) & _ & _); [simpl; lia|].
  destruct (depth_of_ancestors ex_regions "root" _ 0 Hr)
    as (_ & H1 & H0); [simpl; lia|].
  split_and!; [|apply H1; by vm_compute|done].
  vm_compute in Ha. injection Ha as <-. exact Hd.
Defined.

(** C2: for two states whose parent chains are finite and end at a
    top-level state, [least_common_ancestor s1 s2] and
    [least_common_ancestor s2 s1] both return, and return the same. *)
Theorem least_common_ancestor_sym m s1 s2 l1 l2 fuel :
  parent_chain m s1 l1 → parent_chain m s2 l2 →
  length l1 ≤ fuel → length l2 ≤ fuel →
  ∃ r, least_common_ancestor fuel m s1 s2 = Returns r
       ∧ least_common_ancestor fuel m s2 s1 = Returns r.
Proof.
  intros Hc1 Hc2 Hf1 Hf2.
  pose proof (ancestors_for_chain m _ _ _ Hc1 Hf1) as H1.
  pose proof (ancestors_for_chain m _ _ _ Hc2 Hf2) as H2.
  exists (first_common (live_prefix l1) (live_prefix l2)). split.
  - apply least_common_ancestor_Returns. eauto.
  - apply least_common_ancestor_Returns. do 2 eexists.
    split_and!; [done..|].
    apply parent_chain_walked in Hc1 as (v1 & _ & Hw1).
    apply parent_chain_walked in Hc2 as (v2 & _ & Hw2).
    eauto using first_common_sym.
Qed.

Lemma least_common_ancestor_sym_witness :
  least_common_ancestor 3 ex_regions "X1" "X2" = Returns (Some "P")
  ∧ least_common_ancestor 3 ex_regions "X2" "X1" = Returns (Some "P").
Proof.
  assert (parent_chain ex_regions "X1" ["R1"; "P"; "root"]) as Hc1.
  { repeat (apply chain_step; [by vm_compute|]). apply chain_top.
    by vm_compute. }
  assert (parent_chain ex_regions "X2" ["R2"; "P"; "root"]) as Hc2.
  { repeat (apply chain_step; [by vm_compute|]). apply chain_top.
    by vm_compute. }
  destruct (least_common_ancestor_sym ex_regions _ _ _ _ 3 Hc1 Hc2)
    as (r & H12 & H21); [simpl; lia..|].
  assert (r = Some "P") as ->; [|done].
  vm_compute in H12. by injection H12.
Defined.

(** C1 (as stated, refuted): in [ex_root_A] the state [A] is a child of
    [root], and [least_common_ancestor "root" "A"] is [None], not
    ["root"]: the scan goes through the proper ancestors of [s1], of which
    [s1] is none. *)
Lemma least_common_ancestor_root_A :
  parent_chain ex_root_A "A" ["root"]
  ∧ least_common_ancestor 1 ex_root_A "root" "A" = Returns None
  ∧ ¬ ∃ fuel, least_common_ancestor fuel ex_root_A "root" "A"
              = Returns (Some "root").
Proof.
  split_and!.
  - apply chain_step; [by vm_compute|]. apply chain_top. by vm_compute.
  - by vm_compute.
  - intros [fuel H].
    assert (least_common_ancestor 1 ex_root_A "root" "A" = Returns None)
      as H0 by by vm_compute.
    by pose proof (least_common_ancestor_agree _ _ _ _ _ _ _ H H0).
Qed.

(** C1 (amended): when [s1] occurs in the parent chain of [s2] (a finite
    chain ending at a top-level state, without empty names), that is when
    [s2] is a proper descendant of [s1], [least_common_ancestor s1 s2]
    returns the parent of [s1], [None] when [s1] is top-level; it is
    never [s1] itself. *)
Theorem least_common_ancestor_descendant m s1 s2 l fuel :
  parent_chain m s2 l → "" ∉ l → s1 ∈ l → length l ≤ fuel →
  ∃ v, parent m !! s1 = Some v
       ∧ least_common_ancestor fuel m s1 s2 = Returns v
       ∧ v ≠ Some s1.
Proof.
  intros Hc Hne (pre & suf & ->)%list_elem_of_split Hfuel.
  pose proof (parent_chain_suffix m _ _ _ _ Hc) as Hc1.
  rewrite length_app in Hfuel. simpl in Hfuel.
  assert ("" ∉ suf) as Hne1.
  { intros Hin. apply Hne, elem_of_app. right. by right. }
  exists (head suf). split_and!.
  - by apply parent_chain_head.
  - apply least_common_ancestor_Returns. exists suf, (pre ++ s1 :: suf).
    split_and!.
    + apply ancestors_for_chain_nonempty; [done..|lia].
    + apply ancestors_for_chain_nonempty; [done..|].
      rewrite length_app. simpl. lia.
    + by rewrite first_common_suffix.
  - intros Hh. apply (parent_chain_not_self m _ _ Hc1).
    destruct suf as [|q suf]; simplify_eq/=. apply list_elem_of_here.
Qed.

Lemma least_common_ancestor_descendant_witness :
  least_common_ancestor 3 ex_regions "P" "X1" = Returns (Some "root").
Proof.
  assert (parent_chain ex_regions "X1" ["R1"; "P"; "root"]) as Hc.
  { repeat (apply chain_step; [by vm_compute|]). apply chain_top.
    by vm_compute. }
  destruct (least_common_ancestor_descendant ex_regions "P" "X1" _ 3 Hc)
    as (v & Hv & Hl & _).
  - rewrite !elem_of_cons, elem_of_nil. by intros [|[|[|]]].
  - right. left.
  - simpl. lia.
  - vm_compute in Hv. injection Hv as <-. exact Hl.
Defined.

(** ** Descendants *)

Section descendants.
Context (m : StateMachine).

Lemma append_children_app ch q d :
  append_children ch (q, d) = (q ++ ch, d ++ ch).
Proof.
  unfold append_children. revert q d.
  induction ch as [|c ch IH]; intros q d; simpl.
  - by rewrite !app_nil_r.
  - by rewrite IH, <-!app_assoc.
Qed.

Lemma descendants_loop_cons fuel d s rest :
  descendants_loop (S fuel) m d (s :: rest) =
  st ← states_lookup m (Some s);
  descendants_loop fuel m (d ++ children_of st) (rest ++ children_of st).
Proof.
  cbn [descendants_loop].
  destruct (states_lookup m (Some s)) as [st| |]; simpl; [|done..].
  destruct (is_composite st) eqn:Hst.
  - by rewrite append_children_app.
  - assert (children_of st = []) as -> by by destruct st.
    by rewrite !app_nil_r.
Qed.

Lemma states_lookup_Returns s st :
  states_lookup m (Some s) = Returns st ↔ dict_get s (states m) = Some st.
Proof.
  unfold states_lookup. simpl.
  destruct (dict_get s (states m)); split; congruence.
Qed.

(** The loop works off a queue of finite subtrees in as many rounds as
    they have nodes. *)
Lemma descendants_loop_terminates fuel d q ns :
  Forall2 (subtree_size m) q ns → sum_list ns ≤ fuel →
  ∃ out, descendants_loop fuel m d q = Returns out.
Proof.
  revert d q ns. induction fuel as [|fuel IH]; intros d q ns Hq Hfuel.
  - destruct Hq as [|s n q ns Hs Hq]; [by eexists|].
    inversion Hs; subst. simpl in Hfuel. lia.
  - destruct Hq as [|s n q ns Hs Hq]; [by eexists|].
    inversion Hs as [s' st cs Hst Hcs]; subst.
    rewrite descendants_loop_cons.
    apply states_lookup_Returns in Hst. rewrite Hst. simpl.
    apply (IH _ _ (ns ++ cs)).
    + by apply Forall2_app.
    + rewrite sum_list_with_app. simpl in Hfuel. lia.
Qed.

Lemma descendant_of_child d c s st :
  dict_get s (states m) = Some st → c ∈ children_of st →
  d = c ∨ descendant m d c → descendant m d s.
Proof.
  intros Hst Hc [->|Hd].
  - apply descendant_child. by exists st.
  - eapply descendant_step; [|done]. by exists st.
Qed.

(** What the loop returns: what it had collected, and the descendants
    of the states on its queue. *)
Lemma descendants_loop_spec fuel d q out :
  descendants_loop fuel m d q = Returns out →
  ∀ x, x ∈ out ↔ x ∈ d ∨ ∃ s, s ∈ q ∧ descendant m x s.
Proof.
  revert d q. induction fuel as [|fuel IH]; intros d [|s rest].
  - intros [= <-] x. split; [by left|].
    by intros [?|(? & ?%elem_of_nil & _)].
  - done.
  - intros [= <-] x. split; [by left|].
    by intros [?|(? & ?%elem_of_nil & _)].
  - rewrite descendants_loop_cons.
    intros (st & Hst%states_lookup_Returns & Hout)%obind_Returns x.
    rewrite (IH _ _ Hout x), elem_of_app. split.
    + intros [[Hx|Hx]|(c & [Hc|Hc]%elem_of_app & Hd)].
      * by left.
      * right. exists s. split; [left|].
        eapply descendant_of_child; eauto.
      * right. exists c. split; [by right|done].
      * right. exists s. split; [left|].
        eapply descendant_of_child; eauto.
    + intros [Hx|(c & [->|Hc]%elem_of_cons & Hd)].
      * by left; left.
      * inversion Hd as [? ? (st' & Hst' & Hx)|? c ? (st' & Hst' & Hc) Hd'];
          subst; assert (st' = st) as -> by congruence.
        -- by left; right.
        -- right. exists c. split; [|done]. apply elem_of_app. by right.
      * right. exists c. split; [|done]. apply elem_of_app. by left.
Qed.

Lemma descendants_for_spec fuel s out :
  descendants_for fuel m s = Returns out →
  ∀ x, x ∈ out ↔ descendant m x s.
Proof.
  intros Hout x. rewrite (descendants_loop_spec _ _ _ _ Hout x). split.
  - intros [?%elem_of_nil|(s' & ->%list_elem_of_singleton & Hd)]; done.
  - intros Hd. right. exists s. split; [|done]. left.
Qed.

Lemma descendants_for_terminates fuel s n :
  subtree_size m s n → n ≤ fuel →
  ∃ out, descendants_for fuel m s = Returns out.
Proof.
  intros Hs Hfuel. apply (descendants_loop_terminates _ _ _ [n]).
  - by repeat constructor.
  - simpl. lia.
Qed.

(** A descendant heads a strictly smaller subtree. *)
Lemma descendant_smaller d s n :
  descendant m d s → subtree_size m s n →
  ∃ n', subtree_size m d n' ∧ n' < n.
Proof.
  intros Hd. revert n.
  assert (Hchild : ∀ c s n, child_of m c s → subtree_size m s n →
            ∃ n', subtree_size m c n' ∧ n' < n).
  { intros c s0 n (st & Hst & Hc) Hs.
    inversion Hs as [? st' ns Hst' Hcs]; subst.
    assert (st' = st) as -> by congruence.
    apply list_elem_of_lookup in Hc as [i Hi].
    destruct (Forall2_lookup_l _ _ _ _ _ Hcs Hi) as (n' & Hn' & Hsz).
    exists n'. split; [done|].
    apply list_elem_of_lookup_2 in Hn'.
    pose proof (sum_list_with_in n' id ns Hn'). simpl in *. lia. }
  induction Hd as [d s Hc|d c s Hc Hd IH]; intros n Hs.
  - eauto.
  - destruct (Hchild _ _ _ Hc Hs) as (nc & Hnc & Hlt).
    destruct (IH _ Hnc) as (n' & Hn' & Hlt'). exists n'. split; [done|lia].
Qed.

Lemma subtree_not_below_itself s n :
  subtree_size m s n → ¬ descendant m s s.
Proof.
  revert s. induction (lt_wf n) as [n _ IH]. intros s Hs Hd.
  destruct (descendant_smaller _ _ _ Hd Hs) as (n' & Hs' & Hlt).
  exact (IH n' Hlt s Hs' Hd).
Qed.
End descendants.

(** ** Leaves *)

Section leaves.
Context (m : StateMachine).

Lemma keep_after_spec states_ ds :
  keep_after states_ ds = true ↔ ∀ d, d ∈ ds → d ∉ states_.
Proof.
  induction ds as [|d ds IH]; simpl.
  - split; [|done]. by intros _ d ?%elem_of_nil.
  - case_bool_decide as Hd.
    + split; [done|]. intros H. destruct (H d); [left|done].
    + rewrite IH. split.
      * by intros H x [->|?]%elem_of_cons; auto.
      * intros H x Hx. apply H. by right.
Qed.

Lemma filter_all {A} (P : A → Prop) `{∀ x, Decision (P x)} (l : list A) :
  Forall P l → filter P l = l.
Proof.
  induction 1 as [|x l Hx Hl IH]; [done|].
  by rewrite filter_cons_True, IH.
Qed.

(** When the descendants of every state still to visit are computed
    within the fuel, the loop keeps, in order, the states that pass the
    test. *)
Lemma leaf_loop_filter fuel states_ leaves todo :
  Forall (λ s, ∃ ds, descendants_for fuel m s = Returns ds) todo →
  leaf_loop fuel m states_ leaves todo
  = Returns (leaves ++ filter (λ s, is_leaf_in fuel m states_ s) todo).
Proof.
  intros Htodo. revert leaves.
  induction Htodo as [|s todo [ds Hds] _ IH]; intros leaves; simpl.
  - by rewrite app_nil_r.
  - rewrite Hds. simpl. rewrite filter_cons.
    assert (is_leaf_in fuel m states_ s = keep_after states_ ds) as Hleaf.
    { unfold is_leaf_in. by rewrite Hds. }
    destruct (keep_after states_ ds) eqn:Hk.
    + rewrite decide_True by by rewrite Hleaf.
      by rewrite IH, <-app_assoc.
    + rewrite decide_False by (rewrite Hleaf; exact id).
      apply IH.
Qed.

(** On a state with a finite subtree, the test of [leaf_for] says that
    no other input state is among its descendants. *)
Lemma is_leaf_in_spec fuel states_ s n :
  subtree_size m s n → n ≤ fuel →
  is_leaf_in fuel m states_ s ↔
  ∀ d, d ∈ states_ → d ≠ s → ¬ descendant m d s.
Proof.
  intros Hs Hfuel.
  destruct (descendants_for_terminates m fuel s n Hs Hfuel) as [ds Hds].
  unfold is_leaf_in. rewrite Hds.
  rewrite Is_true_true, keep_after_spec. split.
  - intros Hk d Hd _ Hdesc.
    by apply (Hk d); [apply (descendants_for_spec m fuel s ds)|].
  - intros Hk d Hd%(descendants_for_spec m fuel s ds Hds) Hin.
    apply (Hk d Hin); [|done]. intros ->.
    by apply (subtree_not_below_itself m s n).
Qed.

Lemma is_leaf_in_subseteq fuel states1 states2 s :
  (∀ x, x ∈ states1 → x ∈ states2) →
  is_leaf_in fuel m states2 s → is_leaf_in fuel m states1 s.
Proof.
  intros Hsub. unfold is_leaf_in.
  destruct (descendants_for fuel m s) as [ds| |]; [|done..].
  rewrite !Is_true_true, !keep_after_spec. naive_solver.
Qed.
End leaves.

(** C5: for a list [states_] of states each heading a finite subtree of
    registered states, [leaf_for states_] returns; what it returns is
    [states_] filtered, in order, by the condition that no other input
    state is among the (possibly indirect) descendants of the state; and
    [leaf_for] applied to that result returns it unchanged. *)
Theorem leaf_for_spec m states_ fuel :
  Forall (λ s, ∃ n, subtree_size m s n ∧ n ≤ fuel) states_ →
  ∃ leaves,
    leaf_for fuel m states_ = Returns leaves
    ∧ leaves = filter (λ s, is_leaf_in fuel m states_ s) states_
    ∧ (∀ s, s ∈ states_ →
         is_leaf_in fuel m states_ s ↔
         ∀ d, d ∈ states_ → d ≠ s → ¬ descendant m d s)
    ∧ leaf_for fuel m leaves = Returns leaves.
Proof.
  intros Htree.
  assert (Forall (λ s, ∃ ds, descendants_for fuel m s = Returns ds) states_)
    as Hret.
  { eapply Forall_impl; [exact Htree|].
    intros s (n & Hs & Hn). eauto using descendants_for_terminates. }
  eexists. split_and!; [by apply leaf_loop_filter|done| |].
  - intros s Hs. rewrite Forall_forall in Htree.
    destruct (Htree s Hs) as (n & Hn & Hfuel).
    by apply (is_leaf_in_spec m fuel states_ s n).
  - simpl. set (leaves := filter _ states_).
    unfold leaf_for. rewrite leaf_loop_filter; simpl.
    + f_equal. apply filter_all, Forall_forall.
      intros s [Hleaf _]%list_elem_of_filter.
      eapply is_leaf_in_subseteq; [|exact Hleaf].
      by intros x [_ ?]%list_elem_of_filter.
    + apply Forall_forall. intros s [_ Hs]%list_elem_of_filter.
      rewrite Forall_forall in Hret. auto.
Qed.

Lemma ex_regions_subtrees :
  subtree_size ex_regions "P" 5 ∧ subtree_size ex_regions "R1" 2.
Proof.
  assert (subtree_size ex_regions "X1" 1) as HX1.
  { eapply (subtree_node _ _ _ []); [reflexivity|]. constructor. }
  assert (subtree_size ex_regions "X2" 1) as HX2.
  { eapply (subtree_node _ _ _ []); [reflexivity|]. constructor. }
  assert (subtree_size ex_regions "R1" 2) as HR1.
  { eapply (subtree_node _ _ _ [1]); [reflexivity|]. by repeat constructor. }
  assert (subtree_size ex_regions "R2" 2) as HR2.
  { eapply (subtree_node _ _ _ [1]); [reflexivity|]. by repeat constructor. }
  split; [|done].
  eapply (subtree_node _ _ _ [2; 2]); [reflexivity|]. by repeat constructor.
Qed.

Lemma leaf_for_spec_witness :
  leaf_for 5 ex_regions ["P"; "R1"] = Returns ["R1"]
  ∧ leaf_for 5 ex_regions ["R1"] = Returns ["R1"].
Proof.
  destruct ex_regions_subtrees as [HP HR1].
  destruct (leaf_for_spec ex_regions ["P"; "R1"] 5)
    as (leaves & H1 & _ & _ & H4).
  { repeat constructor; eexists; (split; [eassumption|lia]). }
  assert (leaves = ["R1"]) as ->.
  { vm_compute in H1. by injection H1. }
  by split.
Defined.

(** ** Registration *)

Section registration.
Context (m : StateMachine).

(** [register_state], with its lookups resolved. *)
Lemma register_state_run state p :
  register_state state p m =
  let m1 := registered m state (parent_name p) in
  match parent_name p, dict_get_opt (parent_name p) (states m1) with
  | Some key, Some ps =>
      match add_child ps (state_name state) with
      | Returns ps' => (Returns (), set_states (dict_set key ps') m1)
      | Raises e => (Raises e, m1)
      | OutOfFuel => (OutOfFuel, m1)
      end
  | _, _ =>
      (Returns (), set_children (λ c, c ++ [state_name state]) m1)
  end.
Proof.
  cbv [register_state registered parent_getitem states_getitem
       update_state mbind M_bind modify gets mret M_ret raise].
  simpl. rewrite lookup_insert_eq.
  destruct (parent_name p) as [key|]; simpl; [|done].
  destruct (dict_get key _) as [ps|] eqn:Hps; simpl; [|done].
  rewrite lookup_insert_eq. simpl. rewrite Hps.
  by destruct (add_child ps (state_name state)).
Qed.

(** [register_transition], with its lookup resolved. *)
Lemma register_transition_run t :
  register_transition t m =
  let m1 := set_transitions (λ ts, ts ++ [t]) m in
  match dict_get (from_state t) (states m) with
  | Some s =>
      match add_transition s t with
      | Returns s' =>
          (Returns (), set_states (dict_set (from_state t) s') m1)
      | Raises e => (Raises e, m1)
      | OutOfFuel => (OutOfFuel, m1)
      end
  | None => (Raises (KeyError (Some (from_state t))), m1)
  end.
Proof.
  cbv [register_transition states_getitem update_state mbind M_bind
       modify gets mret M_ret raise].
  simpl. destruct (dict_get (from_state t) (states m)) as [s|]; [|done].
  by destruct (add_transition s t).
Qed.

Lemma add_child_composite ps c :
  is_composite ps →
  ∃ ps', add_child ps c = Returns ps'
         ∧ state_children ps' = Some (children_of ps ++ [c])
         ∧ state_name ps' = state_name ps.
Proof. destruct ps; intros []; by eexists. Qed.

Lemma add_child_not_composite ps c :
  ¬ is_composite ps →
  add_child ps c = Raises (AttributeError (class_name ps) "add_child").
Proof. destruct ps; simpl; try done; by intros []. Qed.

Lemma add_transition_holder s t :
  is_transition_state s →
  ∃ s', add_transition s t = Returns s'
        ∧ state_transitions s' = (λ ts, ts ++ [t]) <$> state_transitions s
        ∧ state_children s' = state_children s
        ∧ state_name s' = state_name s.
Proof. destruct s; intros []; by eexists. Qed.

Lemma add_transition_not_holder s t :
  ¬ is_transition_state s →
  add_transition s t
  = Raises (AttributeError (class_name s) "add_transition").
Proof. destruct s; simpl; try done; by intros []. Qed.

(** What a call of [register_state] does when the parent is not the
    state itself and is absent, unregistered or a composite state;
    whether the name was registered before plays no part. *)
Lemma register_state_effect state p :
  parent_name p ≠ Some (state_name state) →
  (∀ ps, dict_get_opt (parent_name p) (states m) = Some ps →
         is_composite ps) →
  ∃ m', register_state state p m = (Returns (), m')
    ∧ dict_get (state_name state) (states m') = Some state
    ∧ parent m' !! state_name state = Some (parent_name p)
    ∧ transitions m' = transitions m
    ∧ (∀ k, k ≠ state_name state → Some k ≠ parent_name p →
         dict_get k (states m') = dict_get k (states m)
         ∧ parent m' !! k = parent m !! k)
    ∧ match parent_name p, dict_get_opt (parent_name p) (states m) with
      | Some key, Some ps =>
          (∃ ps', dict_get key (states m') = Some ps'
                  ∧ state_children ps'
                    = Some (children_of ps ++ [state_name state]))
          ∧ children m' = children m
      | _, _ => children m' = children m ++ [state_name state]
      end.
Proof.
  intros Hself Hcomp. rewrite register_state_run. simpl.
  destruct (parent_name p) as [key|] eqn:Hp; simpl.
  - assert (state_name state ≠ key) as Hne by congruence.
    rewrite (dict_get_set_ne _ _ _ _ Hne). simpl in Hcomp.
    destruct (dict_get key (states m)) as [ps|] eqn:Hps.
    + destruct (add_child_composite ps (state_name state))
        as (ps' & -> & Hch & _); [by apply Hcomp|].
      eexists. split; [done|]. simpl. split_and!; try done.
      * rewrite dict_get_set_ne by done. apply dict_get_set_eq.
      * apply lookup_insert_eq.
      * intros k Hk Hkey.
        rewrite !dict_get_set_ne, lookup_insert_ne by congruence. done.
      * exists ps'. by rewrite dict_get_set_eq.
    + eexists. split; [done|]. simpl. split_and!; try done.
      * apply dict_get_set_eq.
      * apply lookup_insert_eq.
      * intros k Hk Hkey.
        rewrite !dict_get_set_ne, lookup_insert_ne by congruence. done.
  - eexists. split; [done|]. simpl. split_and!; try done.
    + apply dict_get_set_eq.
    + apply lookup_insert_eq.
    + intros k Hk Hkey.
      rewrite !dict_get_set_ne, lookup_insert_ne by congruence. done.
Qed.
End registration.

(** C6 (as stated, refuted): [A] is registered in [ex_root_A]; registering
    another state named [A], at top level, returns normally and changes the
    machine: the entry of [A] in [states] is replaced (its transition is
    gone), its parent is now [None], and [A] is now also a top-level
    child. *)
Lemma register_state_twice_overwrites :
  is_Some (dict_get "A" (states ex_root_A))
  ∧ fst (register_state (BasicState "A" [] None None) (ParentName None)
           ex_root_A) = Returns ()
  ∧ snd (register_state (BasicState "A" [] None None) (ParentName None)
           ex_root_A) ≠ ex_root_A
  ∧ dict_get "A" (states (snd (register_state (BasicState "A" [] None None)
                                 (ParentName None) ex_root_A)))
    = Some (BasicState "A" [] None None)
  ∧ children (snd (register_state (BasicState "A" [] None None)
                     (ParentName None) ex_root_A)) = ["root"; "A"].
Proof.
  split_and!.
  - by eexists.
  - by vm_compute.
  - intros H%(f_equal children). by vm_compute in H.
  - by vm_compute.
  - by vm_compute.
Qed.

(** Writing under a key that is present leaves the keys as they are. *)
Lemma dict_set_keys {V} k (v : V) d :
  is_Some (dict_get k d) → (dict_set k v d).*1 = d.*1.
Proof.
  induction d as [|[k' v'] d IH]; cbn [dict_get dict_set];
    [by intros [? ?]|].
  destruct (decide (k = k')) as [->|Hne]; [done|].
  intros Hd. rewrite !fmap_cons. f_equal. by apply IH.
Qed.

(** C6 (amended): [register_state] makes no duplicate check. When a state
    of the same name is registered already (the parent being another name
    and absent, unregistered or a composite state), the call returns
    normally and the machine has changed: [states[name]] is the new state,
    in the place of the old one (the keys of [states] are as before), and
    [parent[name]] the new parent; and the name is appended once more, to
    the children of the parent when that is registered, to the top-level
    children otherwise. *)
Theorem register_state_duplicate m state p old :
  dict_get (state_name state) (states m) = Some old →
  parent_name p ≠ Some (state_name state) →
  (∀ ps, dict_get_opt (parent_name p) (states m) = Some ps →
         is_composite ps) →
  ∃ m', register_state state p m = (Returns (), m')
    ∧ dict_get (state_name state) (states m') = Some state
    ∧ parent m' !! state_name state = Some (parent_name p)
    ∧ m' ≠ m
    ∧ (states m').*1 = (states m).*1
    ∧ match parent_name p, dict_get_opt (parent_name p) (states m) with
      | Some key, Some ps =>
          (∃ ps', dict_get key (states m') = Some ps'
                  ∧ state_children ps'
                    = Some (children_of ps ++ [state_name state]))
          ∧ children m' = children m
      | _, _ => children m' = children m ++ [state_name state]
      end.
Proof.
  intros Hold Hself Hcomp.
  destruct (register_state_effect m state p Hself Hcomp)
    as (m' & Hrun & Hst & Hpar & _ & _ & Hch).
  exists m'. split_and!; try done.
  - intros ->.
    destruct (parent_name p) as [key|]; simpl in *.
    + destruct (dict_get key (states m)) as [ps|] eqn:Hps.
      * destruct Hch as [(ps' & [= <-] & Hch) _].
        specialize (Hcomp _ eq_refl).
        destruct ps; simpl in *; try done; simplify_eq;
          unfold children_of in Hch; simpl in Hch;
          apply (f_equal length) in Hch; rewrite length_app in Hch;
          simpl in Hch; lia.
      * apply (f_equal length) in Hch. rewrite length_app in Hch.
        simpl in Hch. lia.
    + apply (f_equal length) in Hch. rewrite length_app in Hch.
      simpl in Hch. lia.
  - rewrite register_state_run in Hrun. simpl in Hrun.
    assert (is_Some (dict_get (state_name state) (states m))) as Hsome
      by by eexists.
    destruct (parent_name p) as [key|] eqn:Hp; simpl in Hrun.
    + assert (state_name state ≠ key) as Hne by congruence.
      rewrite (dict_get_set_ne _ _ _ _ Hne) in Hrun.
      destruct (dict_get key (states m)) as [ps|] eqn:Hps.
      * destruct (add_child_composite ps (state_name state))
          as (ps' & Hadd & _); [by apply Hcomp|].
        rewrite Hadd in Hrun. injection Hrun as <-. simpl.
        rewrite !dict_set_keys; [done..|].
        rewrite dict_get_set_ne by done. by eexists.
      * injection Hrun as <-. simpl. by rewrite dict_set_keys.
    + injection Hrun as <-. simpl. by rewrite dict_set_keys.
Qed.

Lemma register_state_duplicate_witness :
  ∃ m', register_state (BasicState "A" [] None None)
          (ParentName (Some "root")) ex_root_A = (Returns (), m')
        ∧ dict_get "A" (states m') = Some (BasicState "A" [] None None)
        ∧ m' ≠ ex_root_A
        ∧ (states m').*1 = ["root"; "A"; "B"]
        ∧ ∃ ps', dict_get "root" (states m') = Some ps'
                 ∧ state_children ps' = Some ["A"; "B"; "A"].
Proof.
  destruct (register_state_duplicate ex_root_A
              (BasicState "A" [] None None) (ParentName (Some "root"))
              (BasicState "A"
                 [mkTransition "A" (Some "B") (Some (mkEvent "go" None))
                    None None] None None))
    as (m' & Hrun & Hst & _ & Hne & Hkeys & Hch & _).
  - reflexivity.
  - simpl. congruence.
  - intros ps. vm_compute. by intros [= <-].
  - exists m'. by split_and!.
Defined.

(** C7 (as stated, refuted): [C] is a fresh name in [ex_root_A] and [A] is
    registered there as a basic state; registering [C] under [A] raises
    [AttributeError], a basic state having no [add_child], and [C] is not
    appended to the top-level children (while [states] and [parent] have
    their new entries already). *)
Lemma register_state_under_basic :
  dict_get "C" (states ex_root_A) = None
  ∧ (∃ ps, dict_get "A" (states ex_root_A) = Some ps
           ∧ is_composite ps = false)
  ∧ fst (register_state (BasicState "C" [] None None)
           (ParentName (Some "A")) ex_root_A)
    = Raises (AttributeError "BasicState" "add_child")
  ∧ children (snd (register_state (BasicState "C" [] None None)
                     (ParentName (Some "A")) ex_root_A))
    = children ex_root_A
  ∧ "C" ∉ children (snd (register_state (BasicState "C" [] None None)
                           (ParentName (Some "A")) ex_root_A)).
Proof.
  split_and!.
  - by vm_compute.
  - eexists. split; by vm_compute.
  - by vm_compute.
  - by vm_compute.
  - assert (children (snd (register_state (BasicState "C" [] None None)
                             (ParentName (Some "A")) ex_root_A))
            = ["root"]) as -> by by vm_compute.
    by intros ?%list_elem_of_singleton.
Qed.

(** A second way for C7 to fail: a fresh composite state registered with
    its own name as parent finds itself in [states], and is appended to
    its own children, not to the top-level ones. *)
Lemma register_state_own_parent :
  fst (register_state (OrthogonalState "S" [] None None [])
         (ParentName (Some "S")) (new_machine "m" "S" None)) = Returns ()
  ∧ dict_get "S"
      (states (snd (register_state (OrthogonalState "S" [] None None [])
                      (ParentName (Some "S")) (new_machine "m" "S" None))))
    = Some (OrthogonalState "S" [] None None ["S"])
  ∧ children (snd (register_state (OrthogonalState "S" [] None None [])
                     (ParentName (Some "S")) (new_machine "m" "S" None)))
    = [].
Proof. split_and!; by vm_compute. Qed.

(** C7 (amended): for a call [register_state state parent] with a fresh
    state name, a parent other than the state's own name, and a parent
    that is absent, unregistered or a registered composite state: the call
    returns normally; the state is in [states] under its name;
    [parent[state.name]] is the given parent name ([None] for a top-level
    state); the name is appended to the children of the parent when the
    parent is a registered composite state, the top-level children being
    unchanged, and is appended to the top-level children otherwise; the
    entries of the other states are unchanged. *)
Theorem register_state_fresh m state p :
  dict_get (state_name state) (states m) = None →
  parent_name p ≠ Some (state_name state) →
  (∀ ps, dict_get_opt (parent_name p) (states m) = Some ps →
         is_composite ps) →
  ∃ m', register_state state p m = (Returns (), m')
    ∧ (∃ d, states m' = d ++ [(state_name state, state)]
            ∧ length d = length (states m))
    ∧ dict_get (state_name state) (states m') = Some state
    ∧ parent m' !! state_name state = Some (parent_name p)
    ∧ (∀ k, k ≠ state_name state → Some k ≠ parent_name p →
         dict_get k (states m') = dict_get k (states m)
         ∧ parent m' !! k = parent m !! k)
    ∧ match parent_name p, dict_get_opt (parent_name p) (states m) with
      | Some key, Some ps =>
          (∃ ps', dict_get key (states m') = Some ps'
                  ∧ state_children ps'
                    = Some (children_of ps ++ [state_name state]))
          ∧ children m' = children m
      | _, _ => children m' = children m ++ [state_name state]
      end.
Proof.
  intros Hfresh Hself Hcomp.
  destruct (register_state_effect m state p Hself Hcomp)
    as (m' & Hrun & Hst & Hpar & _ & Hother & Hch).
  exists m'. split_and!; try done.
  rewrite register_state_run in Hrun. simpl in Hrun.
  rewrite (dict_set_fresh _ _ _ Hfresh) in Hrun.
  destruct (parent_name p) as [key|]; simpl in *.
  - assert (dict_get key (states m ++ [(state_name state, state)])
            = dict_get key (states m)) as Hkey.
    { rewrite <-(dict_set_fresh _ _ _ Hfresh).
      apply dict_get_set_ne. congruence. }
    rewrite Hkey in Hrun.
    destruct (dict_get key (states m)) as [ps|] eqn:Hps.
    + destruct (add_child_composite ps (state_name state))
        as (ps' & Hadd & _); [by apply Hcomp|].
      rewrite Hadd in Hrun. injection Hrun as <-. simpl.
      rewrite (dict_set_fresh _ _ _ Hfresh).
      destruct (dict_set_present key ps' (states m)
                  [(state_name state, state)]) as [-> Hlen]; [by eexists|].
      eauto.
    + injection Hrun as <-. simpl.
      rewrite (dict_set_fresh _ _ _ Hfresh). eauto.
  - injection Hrun as <-. simpl.
    rewrite (dict_set_fresh _ _ _ Hfresh). eauto.
Qed.

Lemma register_state_fresh_witness :
  (∃ m', register_state (BasicState "C" [] None None)
           (ParentState (CompoundState "root" "A" [] None None []))
           ex_root_A = (Returns (), m')
         ∧ (∃ ps', dict_get "root" (states m') = Some ps'
                   ∧ state_children ps' = Some ["A"; "B"; "C"])
         ∧ children m' = ["root"])
  ∧ (∃ m', register_state (BasicState "C" [] None None)
             (ParentName (Some "nowhere")) ex_root_A = (Returns (), m')
           ∧ children m' = ["root"; "C"]).
Proof.
  split.
  - destruct (register_state_fresh ex_root_A (BasicState "C" [] None None)
                (ParentState (CompoundState "root" "A" [] None None [])))
      as (m' & Hrun & _ & _ & _ & _ & Hch).
    + reflexivity.
    + simpl. congruence.
    + intros ps. vm_compute. by intros [= <-].
    + exists m'. split; [done|]. exact Hch.
  - destruct (register_state_fresh ex_root_A (BasicState "C" [] None None)
                (ParentName (Some "nowhere")))
      as (m' & Hrun & _ & _ & _ & _ & Hch).
    + reflexivity.
    + simpl. congruence.
    + intros ps. vm_compute. by intros [=].
    + exists m'. split; [done|]. exact Hch.
Defined.

(** C8 (as stated, refuted): [F] is registered in [ex_final], as a final
    state; registering a transition from [F] does not append it to an
    outgoing list of [F], nor fail for an unknown state: it raises
    [AttributeError], a final state having no [add_transition], and
    [states] is as before. *)
Lemma register_transition_from_final :
  dict_get "F" (states ex_final) = Some (FinalState "F" None None)
  ∧ fst (register_transition (tr_go "F" "A") ex_final)
    = Raises (AttributeError "FinalState" "add_transition")
  ∧ states (snd (register_transition (tr_go "F" "A") ex_final))
    = states ex_final.
Proof. split_and!; by vm_compute. Qed.

(** C8 (amended): [register_transition] always appends the transition to
    the machine's [transitions]. It fails with [KeyError] on the source
    name, the failure for an unknown state, if and only if [from_state] is
    not registered. When [from_state] is registered as a state that holds
    transitions (basic, compound, orthogonal) the call returns normally and
    the transition is appended to that state's outgoing list. When it is
    registered as a history or final state the call fails with
    [AttributeError] and [states] is unchanged. *)
Theorem register_transition_spec m t :
  transitions (snd (register_transition t m)) = transitions m ++ [t]
  ∧ (fst (register_transition t m) = Raises (KeyError (Some (from_state t)))
     ↔ dict_get (from_state t) (states m) = None)
  ∧ (∀ s, dict_get (from_state t) (states m) = Some s →
          is_transition_state s →
          fst (register_transition t m) = Returns ()
          ∧ ∃ s', dict_get (from_state t)
                    (states (snd (register_transition t m))) = Some s'
                  ∧ state_transitions s'
                    = (λ ts, ts ++ [t]) <$> state_transitions s)
  ∧ (∀ s, dict_get (from_state t) (states m) = Some s →
          ¬ is_transition_state s →
          fst (register_transition t m)
          = Raises (AttributeError (class_name s) "add_transition")
          ∧ states (snd (register_transition t m)) = states m).
Proof.
  rewrite register_transition_run. simpl.
  destruct (dict_get (from_state t) (states m)) as [s|] eqn:Hs.
  - destruct (decide (is_transition_state s)) as [Hh|Hh].
    + destruct (add_transition_holder s t Hh) as (s' & Hadd & Hts & _).
      rewrite Hadd. simpl. split_and!; try done.
      * intros s0 [= <-] _. split; [done|]. exists s'.
        by rewrite dict_get_set_eq.
      * by intros s0 [= <-] ?.
    + rewrite (add_transition_not_holder s t Hh). simpl.
      split_and!; try done.
      * by intros s0 [= <-] ?.
      * by intros s0 [= <-] _.
  - simpl. split_and!; done.
Qed.

Lemma register_transition_spec_witness :
  fst (register_transition (tr_go "B" "A") ex_final) = Returns ()
  ∧ fst (register_transition (tr_go "F" "A") ex_final)
    = Raises (AttributeError "FinalState" "add_transition").
Proof.
  destruct (register_transition_spec ex_final (tr_go "B" "A"))
    as (_ & _ & Hok & _).
  destruct (register_transition_spec ex_final (tr_go "F" "A"))
    as (_ & _ & _ & Hfinal).
  split.
  - by apply (Hok (BasicState "B" [] None None)).
  - apply (Hfinal (FinalState "F" None None)); [reflexivity|].
    simpl. exact id.
Defined.

(** C10: when [from_state] is not registered, [register_transition] fails
    with [KeyError] after the transition has been appended to the
    machine's [transitions]: the machine it leaves is not the one it
    found. *)
Theorem register_transition_not_atomic m t :
  dict_get (from_state t) (states m) = None →
  register_transition t m
  = (Raises (KeyError (Some (from_state t))),
     set_transitions (λ ts, ts ++ [t]) m)
  ∧ transitions (snd (register_transition t m)) = transitions m ++ [t]
  ∧ snd (register_transition t m) ≠ m.
Proof.
  intros Hs. rewrite register_transition_run, Hs. simpl.
  split_and!; [done..|].
  intros H%(f_equal transitions)%(f_equal length). simpl in H.
  rewrite length_app in H. simpl in H. lia.
Qed.

Lemma register_transition_not_atomic_witness :
  fst (register_transition (tr_go "Z" "A") ex_root_A)
  = Raises (KeyError (Some "Z"))
  ∧ transitions (snd (register_transition (tr_go "Z" "A") ex_root_A))
    = [tr_go "A" "B"; tr_go "Z" "A"].
Proof.
  destruct (register_transition_not_atomic ex_root_A (tr_go "Z" "A"))
    as (Hrun & Hts & _); [reflexivity|].
  split; [by rewrite Hrun|]. rewrite Hts. reflexivity.
Defined.

(** ** Validation *)

Section validation.
Context (m : StateMachine).

Lemma for_each_Returns {A} (body : A → outcome unit) l :
  for_each body l = Returns () ↔ Forall (λ x, body x = Returns ()) l.
Proof.
  induction l as [|x l IH]; simpl.
  - split; [constructor|done].
  - rewrite Forall_cons, <-IH. unfold mbind, outcome_bind.
    destruct (body x) as [[]| |]; simpl.
    + split; [by split|by intros [_ ?]].
    + split; [done|by intros [? _]].
    + split; [done|by intros [? _]].
Qed.

Lemma for_each_Raises {A} (body : A → outcome unit) l e :
  for_each body l = Raises e → ∃ x, x ∈ l ∧ body x = Raises e.
Proof.
  induction l as [|x l IH]; simpl; [done|].
  unfold mbind, outcome_bind.
  destruct (body x) as [[]| |] eqn:Hx; simpl; [|intros [= <-]|done].
  - intros (y & Hy & He)%IH. exists y. split; [by right|done].
  - exists x. split; [left|done].
Qed.

Lemma truthy_Some p : truthy (Some p) = true ↔ p ≠ "".
Proof.
  unfold truthy. case_bool_decide; simpl; split; congruence.
Qed.







Lemma valid_Returns b :
  valid m = Returns b →
  Forall (λ t, check_transition m t = Returns ()) (transitions m)
  ∧ Forall (λ item, check_state m item = Returns ()) (states m).
Proof.
  unfold valid, mbind, outcome_bind. rewrite <-!for_each_Returns.
  destruct (for_each (check_transition m) _) as [[]| |]; simpl; [|done..].
  by destruct (for_each (check_state m) _) as [[]| |].
Qed.

Lemma valid_Raises e :
  valid m = Raises e →
  (∃ t, t ∈ transitions m ∧ check_transition m t = Raises e)
  ∨ (∃ item, item ∈ states m ∧ check_state m item = Raises e).
Proof.
  unfold valid, mbind, outcome_bind.
  destruct (for_each (check_transition m) _) as [[]| |] eqn:Ht; simpl.
  - destruct (for_each (check_state m) _) as [[]| |] eqn:Hs; simpl;
      [done| |done].
    intros [= <-]. right. by apply for_each_Raises.
  - intros [= <-]. left. by apply for_each_Raises.
  - done.
Qed.
End validation.

(** A loop over a list whose first elements pass runs on from the first
    element that may fail. *)
Lemma for_each_prefix {A} (body : A → outcome unit) pre l :
  Forall (λ y, body y = Returns ()) pre →
  for_each body (pre ++ l) = for_each body l.
Proof.
  induction 1 as [|y pre Hy _ IH]; simpl; [done|]. by rewrite Hy.
Qed.

(** A loop that raises does so at an element before which all pass. *)
Lemma for_each_Raises_first {A} (body : A → outcome unit) l e :
  for_each body l = Raises e ↔
  ∃ pre x post, l = pre ++ x :: post
                ∧ Forall (λ y, body y = Returns ()) pre
                ∧ body x = Raises e.
Proof.
  split.
  - induction l as [|a l IH]; simpl; [done|].
    unfold mbind, outcome_bind.
    destruct (body a) as [[]| |] eqn:Ha; simpl; [|intros [= <-]|done].
    + intros (pre & x & post & -> & Hpre & Hx)%IH.
      exists (a :: pre), x, post. split_and!; [done| |done].
      by constructor.
    + exists [], a, l. split_and!; [done|constructor|done].
  - intros (pre & x & post & -> & Hpre & Hx).
    rewrite for_each_prefix by done. simpl. by rewrite Hx.
Qed.

(** [valid] raises what the first failing check raises: that of a
    transition before which all transitions pass, or, all transitions
    passing, that of a state before which all states pass. *)
Lemma valid_Raises_first m e :
  valid m = Raises e ↔
  (∃ pre t post, transitions m = pre ++ t :: post
                 ∧ Forall (λ t', check_transition m t' = Returns ()) pre
                 ∧ check_transition m t = Raises e)
  ∨ (Forall (λ t, check_transition m t = Returns ()) (transitions m)
     ∧ ∃ pre item post, states m = pre ++ item :: post
                        ∧ Forall (λ i, check_state m i = Returns ()) pre
                        ∧ check_state m item = Raises e).
Proof.
  rewrite <-!for_each_Raises_first, <-for_each_Returns.
  unfold valid, mbind, outcome_bind.
  destruct (for_each (check_transition m) _) as [[]| |] eqn:Ht; simpl.
  - destruct (for_each (check_state m) _) as [[]| |] eqn:Hs; simpl.
    + split; [done|]. by intros [?|[_ ?]].
    + split; [intros [= <-]; by right|]. by intros [?|[_ [= ->]]].
    + split; [done|]. by intros [?|[_ ?]].
  - split; [intros [= <-]; by left|]. by intros [[= ->]|[? _]].
  - split; [done|]. by intros [?|[? _]].
Qed.







(** A top-level compound state is exempt even when its [initial] names no
    registered state: [ex_root_ghost] is valid. *)
Lemma valid_root_level_exempt : valid ex_root_ghost = Returns true.
Proof. by vm_compute. Qed.

(** * Further properties of the hierarchy queries *)

(** ** Descendants: order, count and failures *)

Lemma descendants_loop_extends m fuel d q out :
  descendants_loop fuel m d q = Returns out → ∃ rest, out = d ++ rest.
Proof.
  revert d q. induction fuel as [|fuel IH]; intros d [|s q].
  - intros [= <-]. exists []. by rewrite app_nil_r.
  - done.
  - intros [= <-]. exists []. by rewrite app_nil_r.
  - rewrite descendants_loop_cons.
    intros (st & _ & (rest & ->)%IH)%obind_Returns.
    exists (children_of st ++ rest). by rewrite app_assoc.
Qed.

(** The loop returns one name for each node below the states of its
    queue. *)
Lemma descendants_loop_count m fuel d q ns :
  Forall2 (subtree_size m) q ns → sum_list ns ≤ fuel →
  ∃ out, descendants_loop fuel m d q = Returns out
         ∧ length out + length q = length d + sum_list ns.
Proof.
  revert d q ns. induction fuel as [|fuel IH]; intros d q ns Hq Hfuel.
  - destruct Hq as [|s n q ns Hs Hq]; [by eexists|].
    inversion Hs; subst. simpl in Hfuel. lia.
  - destruct Hq as [|s n q ns Hs Hq]; [eexists; split; [done|simpl; lia]|].
    inversion Hs as [s' st cs Hst Hcs]; subst.
    rewrite descendants_loop_cons.
    apply states_lookup_Returns in Hst. rewrite Hst. simpl.
    destruct (IH (d ++ children_of st) (q ++ children_of st) (ns ++ cs))
      as (out & Hout & Hlen).
    + by apply Forall2_app.
    + rewrite sum_list_with_app. simpl in Hfuel. lia.
    + exists out. split; [done|].
      rewrite !length_app, sum_list_with_app in Hlen. simpl. lia.
Qed.

(** Whatever the loop returns beyond what it had collected, and whatever
    was on its queue, has been looked up in [states]. *)
Lemma descendants_loop_registered m fuel d q out :
  descendants_loop fuel m d q = Returns out →
  (∀ x, x ∈ q → is_Some (dict_get x (states m)))
  ∧ (∀ x, x ∈ out → x ∈ d ∨ is_Some (dict_get x (states m))).
Proof.
  revert d q. induction fuel as [|fuel IH]; intros d [|s q].
  - intros [= <-]. split; [by intros x ?%elem_of_nil|auto].
  - done.
  - intros [= <-]. split; [by intros x ?%elem_of_nil|auto].
  - rewrite descendants_loop_cons.
    intros (st & Hst%states_lookup_Returns & [Hq Hout]%IH)%obind_Returns.
    split.
    + intros x [->|Hx]%elem_of_cons; [by eexists|].
      apply Hq, elem_of_app. by left.
    + intros x [[Hx|Hx]%elem_of_app|Hx]%Hout; [by left| |by right].
      right. apply Hq, elem_of_app. by right.
Qed.

(** X1: on a state heading a finite subtree of registered states,
    [descendants_for] returns; a name is in the result exactly when it is
    a (possibly indirect) descendant of the state in the children lists;
    the state itself is never in the result. *)
Theorem descendants_for_exact m s n fuel :
  subtree_size m s n → n ≤ fuel →
  ∃ out, descendants_for fuel m s = Returns out
         ∧ (∀ x, x ∈ out ↔ descendant m x s)
         ∧ s ∉ out.
Proof.
  intros Hs Hfuel.
  destruct (descendants_for_terminates m fuel s n Hs Hfuel) as [out Hout].
  pose proof (descendants_for_spec m fuel s out Hout) as Hspec.
  exists out. split_and!; [done..|].
  intros Hin%Hspec. by apply (subtree_not_below_itself m s n).
Qed.

Lemma descendants_for_exact_witness :
  descendants_for 5 ex_regions "P" = Returns ["R1"; "R2"; "X1"; "X2"]
  ∧ descendant ex_regions "X2" "P".
Proof.
  destruct ex_regions_subtrees as [HP _].
  destruct (descendants_for_exact ex_regions "P" 5 5 HP)
    as (out & Hout & Hspec & _); [lia|].
  assert (out = ["R1"; "R2"; "X1"; "X2"]) as ->.
  { vm_compute in Hout. by injection Hout. }
  split; [done|]. apply Hspec. do 3 right. left.
Defined.

(** X2: on a state heading a finite subtree of [n] nodes,
    [descendants_for] returns [n - 1] names, one for each node below the
    state, within [n] rounds of its loop. *)
Theorem descendants_for_count m s n fuel :
  subtree_size m s n → n ≤ fuel →
  ∃ out, descendants_for fuel m s = Returns out ∧ length out + 1 = n.
Proof.
  intros Hs Hfuel.
  destruct (descendants_loop_count m fuel [] [s] [n]) as (out & Hout & Hlen).
  - by repeat constructor.
  - simpl. lia.
  - exists out. split; [done|]. simpl in Hlen. lia.
Qed.

Lemma descendants_for_count_witness :
  ∃ out, descendants_for 5 ex_regions "P" = Returns out ∧ length out + 1 = 5.
Proof.
  destruct ex_regions_subtrees as [HP _].
  apply (descendants_for_count ex_regions "P" 5 5 HP). lia.
Defined.

Lemma next_generation_cons m s g :
  next_generation m (s :: g) = kids m s ++ next_generation m g.
Proof. done. Qed.

(** Working off a first part [q] of the queue appends the next generation
    below [q] both to the queue and to the result, and takes at least one
    round for each state of [q]. *)
Lemma descendants_loop_generation m q fuel d c out :
  descendants_loop fuel m d (q ++ c) = Returns out →
  ∃ fuel', fuel' + length q ≤ fuel
           ∧ descendants_loop fuel' m (d ++ next_generation m q)
               (c ++ next_generation m q) = Returns out.
Proof.
  revert fuel d c. induction q as [|s q IH]; intros fuel d c.
  - intros H. exists fuel. split; [simpl; lia|].
    unfold next_generation. simpl. by rewrite !app_nil_r.
  - destruct fuel as [|fuel]; [done|].
    rewrite <-app_comm_cons, descendants_loop_cons.
    intros (st & Hst%states_lookup_Returns & Hrun)%obind_Returns.
    rewrite <-app_assoc in Hrun.
    apply IH in Hrun as (fuel' & Hfuel & Hrun).
    exists fuel'. split; [simpl; lia|].
    rewrite next_generation_cons. unfold kids. rewrite Hst.
    by rewrite !app_assoc in *.
Qed.

(** From a queue that holds one whole generation, the loop appends the
    generations below it, one after the other, until one is empty. *)
Lemma descendants_loop_generations m fuel d g out :
  descendants_loop fuel m d g = Returns out →
  ∃ n, out = d ++ generations m n g ∧ generation m n g = [].
Proof.
  revert d g. induction (lt_wf fuel) as [fuel _ IH]. intros d g Hrun.
  destruct g as [|s g].
  - exists 0. simpl. rewrite app_nil_r.
    destruct fuel; simpl in Hrun; by simplify_eq.
  - rewrite <-(app_nil_r (s :: g)) in Hrun.
    apply descendants_loop_generation in Hrun as (fuel' & Hfuel & Hrun).
    simpl in Hfuel, Hrun.
    apply IH in Hrun as (n & -> & Hn); [|lia].
    exists (S n). simpl. by rewrite <-app_assoc.
Qed.

(** X3: whenever [descendants_for] returns for a registered state, the
    result is in breadth-first order: first the state's own children, in
    the order of its children list, then the generations below them one
    after the other, each in the order of the children lists of the
    generation before, up to the first empty generation. *)
Theorem descendants_for_breadth_first m s st fuel out :
  dict_get s (states m) = Some st →
  descendants_for fuel m s = Returns out →
  ∃ n, out = children_of st ++ generations m n (children_of st)
       ∧ generation m n (children_of st) = [].
Proof.
  intros Hst (n & -> & Hn)%descendants_loop_generations.
  destruct n as [|n]; [done|]. exists n.
  assert (next_generation m [s] = children_of st) as Hs.
  { unfold next_generation, kids. simpl. by rewrite Hst, app_nil_r. }
  simpl in *. by rewrite Hs in *.
Qed.

Lemma descendants_for_breadth_first_witness :
  ∃ n, ["A"; "B"; "P"; "R1"; "R2"; "X1"; "X2"]
       = ["A"; "B"; "P"] ++ generations ex_regions n ["A"; "B"; "P"]
       ∧ generation ex_regions n ["A"; "B"; "P"] = [].
Proof.
  apply (descendants_for_breadth_first ex_regions "root"
           (CompoundState "root" "A" [] None None ["A"; "B"; "P"]) 8);
    by vm_compute.
Defined.

(** X4: [descendants_for] raises [KeyError] on a name that is not
    registered, returns the empty list on a registered state that is not
    a composite, and cannot return when a descendant of the state is not
    registered. *)
Theorem descendants_for_failures m s fuel :
  (dict_get s (states m) = None →
   descendants_for (S fuel) m s = Raises (KeyError (Some s)))
  ∧ (∀ st, dict_get s (states m) = Some st → is_composite st = false →
           descendants_for (S fuel) m s = Returns [])
  ∧ (∀ x, descendant m x s → dict_get x (states m) = None →
          ∀ out, descendants_for fuel m s ≠ Returns out).
Proof.
  unfold descendants_for. split_and!.
  - intros Hs. cbn [descendants_loop]. unfold states_lookup. simpl.
    by rewrite Hs.
  - intros st Hst Hcomp. cbn [descendants_loop]. unfold states_lookup.
    simpl. rewrite Hst. simpl. rewrite Hcomp. by destruct fuel.
  - intros x Hx Hnone out Hout.
    pose proof (descendants_for_spec m fuel s out Hout x) as Hspec.
    apply descendants_loop_registered in Hout as [_ Hreg].
    destruct (Hreg x) as [?%elem_of_nil|[? ?]]; [by apply Hspec|done|].
    congruence.
Qed.

Lemma descendants_for_failures_witness :
  descendants_for 1 ex_regions "nowhere" = Raises (KeyError (Some "nowhere"))
  ∧ descendants_for 1 ex_regions "X1" = Returns []
  ∧ ∀ out, descendants_for 5 ex_dangling "root" ≠ Returns out.
Proof.
  destruct (descendants_for_failures ex_regions "nowhere" 0) as (Hk & _ & _).
  destruct (descendants_for_failures ex_regions "X1" 0) as (_ & He & _).
  destruct (descendants_for_failures ex_dangling "root" 5) as (_ & _ & Hd).
  split_and!.
  - by apply Hk.
  - by apply (He (BasicState "X1" [] None None)).
  - apply (Hd "ghost"); [|reflexivity].
    apply descendant_child. eexists. split; [reflexivity|]. left.
Defined.

(** ** Ancestors: what a returned walk is, and when there is none *)

Lemma nth_parent_shift m n s p :
  parent m !! s = Some (Some p) →
  nth_parent m (S n) s = nth_parent m n p.
Proof.
  intros Hs. induction n as [|n IH].
  - simpl. by rewrite Hs.
  - change (nth_parent m (S (S n)) s)
      with (q ← nth_parent m (S n) s; mjoin (parent m !! q)).
    by rewrite IH.
Qed.

Lemma walked_nth m v l s :
  walked m v l → parent m !! s = Some v →
  (∀ i x, l !! i = Some x → nth_parent m (S i) s = Some x)
  ∧ truthy (nth_parent m (S (length l)) s) = false.
Proof.
  intros Hw. revert s.
  induction Hw as [v Hv|p v l Hp Hv Hw IH]; intros s Hs.
  - split; [done|]. simpl. rewrite Hs. simpl. by destruct v.
  - destruct (IH p Hv) as [IH1 IH2]. split.
    + intros [|i] x Hx; simpl in Hx.
      * injection Hx as <-. simpl. by rewrite Hs.
      * rewrite (nth_parent_shift m _ _ _ Hs). by apply IH1.
    + simpl length. by rewrite (nth_parent_shift m _ _ _ Hs).
Qed.

Lemma walked_nonempty m v l : walked m v l → "" ∉ l.
Proof.
  induction 1 as [v Hv|p v l Hp Hv Hw IH]; [by intros ?%elem_of_nil|].
  intros [<-|?]%elem_of_cons; [|done]. by vm_compute in Hp.
Qed.

Lemma ancestors_for_Returns_walked m fuel s l :
  ancestors_for fuel m s = Returns l →
  ∃ v, parent m !! s = Some v ∧ walked m v l.
Proof.
  intros (v & Hv & Hl)%ancestors_for_walked.
  exists v. split; [done|]. by eapply ancestors_loop_walked.
Qed.

(** One round of the loop, seen from outside. *)
Lemma ancestors_for_step m fuel s p :
  parent m !! s = Some (Some p) → p ≠ "" →
  ancestors_for (S fuel) m s = l ← ancestors_for fuel m p; Returns (p :: l).
Proof.
  intros Hs Hp. unfold ancestors_for.
  assert (parent_lookup m s = Returns (Some p)) as ->
    by by apply parent_lookup_Returns.
  assert (truthy (Some p) = true) as Ht.
  { unfold truthy. by rewrite bool_decide_false. }
  cbn [mbind outcome_bind obind]. rewrite ancestors_loop_unfold, Ht.
  destruct (parent_lookup m p) as [v| |]; cbn [mbind outcome_bind obind];
    [|done..].
  by rewrite ancestors_loop_acc.
Qed.

Lemma climbs_trans m a b c : climbs m a b → climbs m b c → climbs m a c.
Proof.
  induction 1 as [s p Hs Hp|s p a Hs Hp Hc IH]; intros Hbc.
  - by eapply climbs_more.
  - eapply climbs_more; eauto.
Qed.

Lemma climbs_cycle_parent m s :
  climbs m s s →
  ∃ p, parent m !! s = Some (Some p) ∧ p ≠ "" ∧ climbs m p p.
Proof.
  intros Hc. inversion Hc as [? p Hs Hp|? p ? Hs Hp Hps]; subst.
  - by exists s.
  - exists p. split_and!; [done..|].
    eapply climbs_trans; [exact Hps|]. by apply climbs_one.
Qed.

Lemma ancestors_for_cycle m fuel s :
  climbs m s s → ancestors_for fuel m s = OutOfFuel.
Proof.
  revert s. induction fuel as [|fuel IH]; intros s Hc;
    destruct (climbs_cycle_parent m s Hc) as (p & Hs & Hp & Hpp).
  - unfold ancestors_for, parent_lookup. rewrite Hs. simpl.
    unfold truthy. by rewrite bool_decide_false.
  - by rewrite (ancestors_for_step m fuel s p Hs Hp), (IH p Hpp).
Qed.

(** X5: whenever [ancestors_for] returns, on any machine, the result has
    no repetition, contains neither the state itself nor an empty name,
    its element [i] is the [(i+1)]-fold parent of the state, and the walk
    stopped because the next parent is [None] or the empty name. *)
Theorem ancestors_for_returned_walk m fuel s l :
  ancestors_for fuel m s = Returns l →
  NoDup l ∧ (s ∉ l) ∧ ("" ∉ l)
  ∧ (∀ i x, l !! i = Some x → nth_parent m (S i) s = Some x)
  ∧ truthy (nth_parent m (S (length l)) s) = false.
Proof.
  intros (v & Hv & Hw)%ancestors_for_Returns_walked.
  destruct (walked_nth m v l s Hw Hv) as [Hnth Hend].
  split_and!; [by eapply walked_NoDup| |by eapply walked_nonempty|done..].
  intros (pre & suf & ->)%list_elem_of_split.
  destruct (walked_suffix m _ _ _ _ Hw) as (v' & Hv' & Hsuf).
  assert (v' = v) as -> by congruence.
  pose proof (walked_functional m _ _ _ Hw Hsuf) as Heq.
  apply (f_equal length) in Heq. rewrite length_app in Heq.
  simpl in Heq. lia.
Qed.

Lemma ancestors_for_returned_walk_witness :
  NoDup ["R1"; "P"; "root"] ∧ "X1" ∉ ["R1"; "P"; "root"].
Proof.
  destruct (ancestors_for_returned_walk ex_regions 3 "X1"
              ["R1"; "P"; "root"]) as (Hnd & Hself & _); [by vm_compute|].
  by split.
Defined.

(** X6: registering a state under a parent name that is not registered
    returns normally and makes the state a top-level child, but the
    parent index now leads to a name it has no entry for:
    [ancestors_for] and [depth_of] of the new state raise [KeyError] on
    the parent's name. *)
Theorem register_under_unknown_parent m state ghost fuel :
  dict_get ghost (states m) = None → parent m !! ghost = None →
  ghost ≠ "" → ghost ≠ state_name state →
  ∃ m', register_state state (ParentName (Some ghost)) m = (Returns (), m')
    ∧ children m' = children m ++ [state_name state]
    ∧ ancestors_for (S fuel) m' (state_name state)
      = Raises (KeyError (Some ghost))
    ∧ depth_of (S fuel) m' (Some (state_name state))
      = Raises (KeyError (Some ghost)).
Proof.
  intros Hghost Hpar Hne Hself.
  destruct (register_state_effect m state (ParentName (Some ghost)))
    as (m' & Hrun & _ & Hname & _ & Hother & Hch).
  { simpl. congruence. }
  { simpl. rewrite Hghost. by intros ps [=]. }
  simpl in Hch, Hname. rewrite Hghost in Hch.
  assert (ancestors_for (S fuel) m' (state_name state)
          = Raises (KeyError (Some ghost))) as Hanc.
  { unfold ancestors_for, parent_lookup. rewrite Hname.
    cbn [mbind outcome_bind obind]. rewrite ancestors_loop_unfold.
    unfold truthy. rewrite bool_decide_false by done. simpl.
    unfold parent_lookup.
    rewrite register_state_run in Hrun. simpl in Hrun.
    rewrite dict_get_set_ne, Hghost in Hrun by done.
    injection Hrun as <-. simpl.
    by rewrite lookup_insert_ne, Hpar by done. }
  exists m'. split_and!; try done.
  unfold depth_of. by rewrite Hanc.
Qed.

Lemma register_under_unknown_parent_witness :
  ∃ m', register_state (BasicState "C" [] None None)
          (ParentName (Some "ghost")) ex_root_A = (Returns (), m')
        ∧ children m' = ["root"; "C"]
        ∧ ancestors_for 1 m' "C" = Raises (KeyError (Some "ghost")).
Proof.
  destruct (register_under_unknown_parent ex_root_A
              (BasicState "C" [] None None) "ghost" 0)
    as (m' & Hrun & Hch & Hanc & _); try done.
  exists m'. by split_and!.
Defined.

(** X7: when a state is its own ancestor through non-empty names, as
    after registering a state with its own name as parent,
    [ancestors_for] never returns nor raises, whatever the fuel: the
    [while] loop has no exit; [depth_of] and [least_common_ancestor],
    which call it, do not return either. *)
Theorem ancestors_for_cycle_diverges m s fuel :
  climbs m s s →
  ancestors_for fuel m s = OutOfFuel
  ∧ depth_of fuel m (Some s) = OutOfFuel
  ∧ ∀ s2, least_common_ancestor fuel m s s2 = OutOfFuel.
Proof.
  intros Hc. pose proof (ancestors_for_cycle m fuel s Hc) as Hanc.
  unfold depth_of, least_common_ancestor. rewrite Hanc. by split_and!.
Qed.

Lemma ancestors_for_cycle_diverges_witness :
  ancestors_for 1000 ex_self_parent "S" = OutOfFuel.
Proof.
  apply (ancestors_for_cycle_diverges ex_self_parent "S" 1000).
  apply climbs_one; [by vm_compute|done].
Defined.

(** X8: the depth of a state is one more than the depth of its parent:
    when the parent has a non-empty name and [depth_of] returns [d] for
    it, [depth_of] returns [d + 1] for the state, with one more round of
    the loop. *)
Theorem depth_of_child m s p fuel d :
  parent m !! s = Some (Some p) → p ≠ "" →
  depth_of fuel m (Some p) = Returns d →
  depth_of (S fuel) m (Some s) = Returns (S d).
Proof.
  intros Hs Hp. unfold depth_of.
  rewrite (ancestors_for_step m fuel s p Hs Hp).
  destruct (ancestors_for fuel m p) as [l| |]; simpl; [|done..].
  intros [= <-]. done.
Qed.

Lemma depth_of_child_witness :
  depth_of 3 ex_regions (Some "X1") = Returns 4.
Proof.
  apply (depth_of_child ex_regions "X1" "R1" 2 3); by vm_compute.
Defined.

(** ** Least common ancestor: what the result is *)

Lemma ancestors_loop_fuel_bound m fuel v l :
  ancestors_loop fuel m [] v = Returns l → length l ≤ fuel.
Proof.
  revert v l. induction fuel as [|fuel IH]; intros v l;
    rewrite ancestors_loop_unfold; destruct (truthy v);
    try (intros [= <-]; simpl; lia); destruct v as [p|]; try done.
  intros (v & _ & Hl)%obind_Returns.
  rewrite ancestors_loop_acc in Hl.
  apply obind_Returns in Hl as (l' & Hl'%IH & [= <-]). simpl. lia.
Qed.

Lemma first_common_self l : first_common l l = head l.
Proof.
  destruct l as [|x l]; [done|]. simpl.
  rewrite bool_decide_true; [done|left].
Qed.

(** X9: when [least_common_ancestor] returns a state [a], the common
    members of the two ancestor lists are exactly [a] and the ancestors
    of [a], so that [a] is the deepest common ancestor; when it returns
    [None], the two ancestor lists have no common member. *)
Theorem least_common_ancestor_deepest m fuel s1 s2 r :
  least_common_ancestor fuel m s1 s2 = Returns r →
  ∃ l1 l2,
    ancestors_for fuel m s1 = Returns l1
    ∧ ancestors_for fuel m s2 = Returns l2
    ∧ match r with
      | Some a =>
          ∃ la, ancestors_for fuel m a = Returns la
                ∧ ∀ c, (c ∈ l1 ∧ c ∈ l2) ↔ (c = a ∨ c ∈ la)
      | None => ∀ c, c ∈ l1 → c ∉ l2
      end.
Proof.
  intros (l1 & l2 & H1 & H2 & ->)%least_common_ancestor_Returns.
  exists l1, l2. split_and!; [done..|].
  destruct (first_common l1 l2) as [a|] eqn:Hfc;
    [|by apply first_common_None].
  apply first_common_Some in Hfc as (pre1 & suf & -> & Ha & Hpre1).
  apply list_elem_of_split in Ha as (pre2 & suf2 & ->).
  pose proof H1 as (v1 & Hv1 & Hl1)%ancestors_for_walked.
  pose proof (ancestors_loop_fuel_bound _ _ _ _ Hl1) as Hlen.
  apply ancestors_for_Returns_walked in H1 as (? & _ & Hw1).
  apply ancestors_for_Returns_walked in H2 as (? & _ & Hw2).
  destruct (walked_suffix m _ _ _ _ Hw1) as (u1 & Hu1 & Hs1).
  destruct (walked_suffix m _ _ _ _ Hw2) as (u2 & Hu2 & Hs2).
  assert (u2 = u1) as -> by congruence.
  assert (suf2 = suf) as -> by eauto using walked_functional.
  exists suf. split.
  - apply ancestors_for_walked. exists u1. split; [done|].
    apply walked_ancestors_loop; [done|].
    rewrite length_app in Hlen. simpl in Hlen. lia.
  - intros c. rewrite !elem_of_app, !elem_of_cons. split.
    + intros [[Hc|Hc] Hc2]; [|done].
      destruct (Hpre1 c Hc). rewrite elem_of_app, elem_of_cons. done.
    + intros Hc. split; by right.
Qed.

Lemma least_common_ancestor_deepest_witness :
  ∃ la, ancestors_for 3 ex_regions "P" = Returns la
        ∧ ∀ c, (c ∈ ["R1"; "P"; "root"] ∧ c ∈ ["R2"; "P"; "root"])
               ↔ (c = "P" ∨ c ∈ la).
Proof.
  destruct (least_common_ancestor_deepest ex_regions 3 "X1" "X2" (Some "P"))
    as (l1 & l2 & H1 & H2 & la & Hla & Hc); [by vm_compute|].
  vm_compute in H1, H2.
  injection H1 as <-. injection H2 as <-. by exists la.
Defined.

(** X10: for two states with the same entry in the parent index, in
    particular a state and itself, [least_common_ancestor] ends as
    [ancestors_for] does on the first of them: when that returns, the
    result is the shared parent if it is a non-empty name and [None]
    otherwise; when that raises or does not return, so does
    [least_common_ancestor]. *)
Theorem least_common_ancestor_same_parent m fuel s1 s2 v :
  parent m !! s1 = Some v → parent m !! s2 = Some v →
  least_common_ancestor fuel m s1 s2
  = (ancestors_for fuel m s1 ≫= λ _,
       Returns (if truthy v then v else None)).
Proof.
  intros Hv1 Hv2.
  assert (ancestors_for fuel m s2 = ancestors_for fuel m s1) as Hl2.
  { unfold ancestors_for, parent_lookup. by rewrite Hv1, Hv2. }
  unfold least_common_ancestor. rewrite Hl2.
  destruct (ancestors_for fuel m s1) as [l| |] eqn:Hl; [|done..].
  cbn [mbind outcome_bind obind]. rewrite first_common_self. f_equal.
  apply ancestors_for_Returns_walked in Hl as (v' & Hv' & Hw).
  assert (v' = v) as -> by congruence.
  destruct Hw as [v Hf|p v' l Ht _ _]; [by rewrite Hf|by rewrite Ht].
Qed.

Lemma least_common_ancestor_same_parent_witness :
  least_common_ancestor 1 ex_root_A "A" "B" = Returns (Some "root")
  ∧ least_common_ancestor 1 ex_root_A "root" "root" = Returns None
  ∧ least_common_ancestor 5 ex_self_parent "S" "S" = OutOfFuel.
Proof.
  split_and!.
  - by rewrite (least_common_ancestor_same_parent ex_root_A 1 "A" "B"
                  (Some "root")) by by vm_compute.
  - by rewrite (least_common_ancestor_same_parent ex_root_A 1 "root" "root"
                  None) by by vm_compute.
  - by rewrite (least_common_ancestor_same_parent ex_self_parent 5 "S" "S"
                  (Some "S")) by by vm_compute.
Defined.

(** ** Leaves: shape of the result *)

Lemma leaf_loop_sublist m fuel states_ leaves todo out :
  leaf_loop fuel m states_ leaves todo = Returns out →
  (∃ kept, out = leaves ++ kept ∧ kept `sublist_of` todo)
  ∧ Forall (λ s, ∃ ds, descendants_for fuel m s = Returns ds) todo.
Proof.
  revert leaves. induction todo as [|s todo IH]; intros leaves; simpl.
  - intros [= <-]. split; [|constructor].
    exists []. by rewrite app_nil_r.
  - intros (ds & Hds & Hout)%obind_Returns.
    destruct (keep_after states_ ds).
    + apply IH in Hout as [(kept & -> & Hsub) Hall]. split.
      * exists (s :: kept). rewrite <-app_assoc. split; [done|].
        by apply sublist_skip.
      * constructor; eauto.
    + apply IH in Hout as [(kept & -> & Hsub) Hall]. split.
      * exists kept. split; [done|]. by apply sublist_cons.
      * constructor; eauto.
Qed.

Lemma keep_after_false states_ ds :
  keep_after states_ ds = false → ∃ d, d ∈ ds ∧ d ∈ states_.
Proof.
  induction ds as [|d ds IH]; simpl; [done|].
  case_bool_decide as Hd.
  - intros _. exists d. split; [left|done].
  - intros (x & Hx & Hin)%IH. exists x. split; [by right|done].
Qed.

(** Among input states with finite subtrees there is always one that
    passes the test of [leaf_for]: follow the descendants downwards. *)
Lemma exists_leaf m fuel states_ n s :
  Forall (λ s, ∃ n, subtree_size m s n ∧ n ≤ fuel) states_ →
  s ∈ states_ → subtree_size m s n → n ≤ fuel →
  ∃ s', s' ∈ states_ ∧ is_leaf_in fuel m states_ s'.
Proof.
  intros Htree. revert s.
  induction (lt_wf n) as [n _ IH]. intros s Hin Hs Hfuel.
  destruct (is_leaf_in fuel m states_ s) eqn:Hleaf.
  - exists s. by rewrite Hleaf.
  - unfold is_leaf_in in Hleaf.
    destruct (descendants_for_terminates m fuel s n Hs Hfuel) as [ds Hds].
    rewrite Hds in Hleaf.
    apply keep_after_false in Hleaf as (d & Hd & Hdin).
    apply (descendants_for_spec m fuel s ds Hds) in Hd.
    destruct (descendant_smaller m d s n Hd Hs) as (n' & Hn' & Hlt).
    apply (IH n' Hlt d); [done..|lia].
Qed.

(** X11: whenever [leaf_for] returns, the result is a sublist of the
    input (same order, nothing added), and every input state is
    registered: an unregistered input makes the call fail. *)
Theorem leaf_for_returns_sublist m fuel states_ out :
  leaf_for fuel m states_ = Returns out →
  out `sublist_of` states_
  ∧ ∀ s, s ∈ states_ → is_Some (dict_get s (states m)).
Proof.
  intros [(kept & -> & Hsub) Hall]%leaf_loop_sublist. split; [done|].
  intros s Hs. rewrite Forall_forall in Hall.
  destruct (Hall s Hs) as [ds Hds].
  apply descendants_loop_registered in Hds as [Hq _].
  apply Hq. left.
Qed.

Lemma leaf_for_returns_sublist_witness :
  ["R1"] `sublist_of` ["P"; "R1"].
Proof.
  apply (leaf_for_returns_sublist ex_regions 5 ["P"; "R1"] ["R1"]).
  by vm_compute.
Defined.

(** X12: over input states heading finite subtrees, no state returned by
    [leaf_for] is a descendant of another returned state, or of itself. *)
Theorem leaf_for_antichain m fuel states_ leaves :
  Forall (λ s, ∃ n, subtree_size m s n ∧ n ≤ fuel) states_ →
  leaf_for fuel m states_ = Returns leaves →
  ∀ a b, a ∈ leaves → b ∈ leaves → ¬ descendant m a b.
Proof.
  intros Htree Hleaves a b Ha Hb Hdesc.
  assert (Forall (λ s, ∃ ds, descendants_for fuel m s = Returns ds) states_)
    as Hret.
  { eapply Forall_impl; [exact Htree|].
    intros s (n & Hs & Hn). eauto using descendants_for_terminates. }
  unfold leaf_for in Hleaves.
  rewrite (leaf_loop_filter m fuel states_ [] states_ Hret) in Hleaves.
  injection Hleaves as <-. simpl in Ha, Hb.
  apply list_elem_of_filter in Ha as [_ Ha].
  apply list_elem_of_filter in Hb as [Hleaf Hb].
  rewrite Forall_forall in Htree.
  destruct (Htree b Hb) as (n & Hn & Hfuel).
  destruct (decide (a = b)) as [->|Hne].
  - by apply (subtree_not_below_itself m b n).
  - destruct (is_leaf_in_spec m fuel states_ b n Hn Hfuel) as [Hspec _].
    by apply (Hspec Hleaf a).
Qed.

Lemma leaf_for_antichain_witness :
  ¬ descendant ex_regions "X1" "R2" ∧ ¬ descendant ex_regions "R2" "X1".
Proof.
  destruct ex_regions_subtrees as [HP HR1].
  assert (subtree_size ex_regions "X1" 1) as HX1.
  { eapply (subtree_node _ _ _ []); [reflexivity|]. constructor. }
  assert (subtree_size ex_regions "R2" 2) as HR2.
  { eapply (subtree_node _ _ _ [1]); [reflexivity|].
    repeat constructor.
    eapply (subtree_node _ _ _ []); [reflexivity|]. constructor. }
  pose proof (leaf_for_antichain ex_regions 5 ["P"; "X1"; "R2"] ["X1"; "R2"])
    as H.
  split; apply H; try by vm_compute.
  - repeat constructor; eexists; (split; [eassumption|lia]).
  - left.
  - right. left.
  - repeat constructor; eexists; (split; [eassumption|lia]).
  - right. left.
  - left.
Defined.

(** X13: over a non-empty input of states heading finite subtrees,
    [leaf_for] returns a non-empty list: a deepest input state always
    survives. *)
Theorem leaf_for_nonempty m fuel states_ :
  Forall (λ s, ∃ n, subtree_size m s n ∧ n ≤ fuel) states_ →
  states_ ≠ [] →
  ∃ leaves, leaf_for fuel m states_ = Returns leaves ∧ leaves ≠ [].
Proof.
  intros Htree Hne.
  assert (Forall (λ s, ∃ ds, descendants_for fuel m s = Returns ds) states_)
    as Hret.
  { eapply Forall_impl; [exact Htree|].
    intros s (n & Hs & Hn). eauto using descendants_for_terminates. }
  eexists. split; [by apply leaf_loop_filter|]. simpl.
  destruct states_ as [|s0 rest]; [done|].
  pose proof Htree as Ht. rewrite Forall_forall in Ht.
  destruct (Ht s0) as (n & Hn & Hfuel); [left|].
  destruct (exists_leaf m fuel (s0 :: rest) n s0 Htree) as (s' & Hin & Hleaf);
    [left|done..|].
  intros Hnil.
  assert (s' ∈ filter (λ s, is_leaf_in fuel m (s0 :: rest) s) (s0 :: rest))
    as Hs' by by apply list_elem_of_filter.
  rewrite Hnil in Hs'. by apply elem_of_nil in Hs'.
Qed.

Lemma leaf_for_nonempty_witness :
  ∃ leaves, leaf_for 5 ex_regions ["P"; "R1"] = Returns leaves ∧ leaves ≠ [].
Proof.
  destruct ex_regions_subtrees as [HP HR1].
  apply leaf_for_nonempty; [|done].
  repeat constructor; eexists; (split; [eassumption|lia]).
Defined.

(** ** Validation: what success guarantees, and which error comes first *)

Lemma check_transition_cases m t :
  check_transition m t = Returns ()
  ∨ check_transition m t = Raises (ValueError (UnknownStateRef t))
  ∨ check_transition m t = Raises (ValueError (InternalEventlessGuardless t)).
Proof. unfold check_transition. repeat case_match; auto. Qed.

(** A loop whose body fails on some element stops at the first such
    element, with the outcome of the body there. *)
Lemma for_each_first_failure {A} (body : A → outcome unit) l x :
  x ∈ l → body x ≠ Returns () →
  ∃ y, y ∈ l ∧ body y ≠ Returns () ∧ for_each body l = body y.
Proof.
  induction l as [|a l IH]; [by intros ?%elem_of_nil|].
  intros Hx Hbad. simpl. unfold mbind, outcome_bind.
  destruct (body a) as [[]| |] eqn:Ha; simpl.
  - apply elem_of_cons in Hx as [->|Hx]; [done|].
    destruct (IH Hx Hbad) as (y & Hy & Hyb & Hrun).
    exists y. split_and!; [by right|done..].
  - exists a. rewrite Ha. split_and!; [left|done..].
  - exists a. rewrite Ha. split_and!; [left|done..].
Qed.

(** X14: [valid] never returns [False]; when it returns, every registered
    transition has a registered source, a target that is registered
    whenever it is a non-empty name, and is not at once without event,
    without guard and without target. *)
Theorem valid_transitions_ok m b :
  valid m = Returns b →
  b = true
  ∧ ∀ t, t ∈ transitions m →
      is_Some (dict_get (from_state t) (states m))
      ∧ (∀ dst, to_state t = Some dst → dst ≠ "" →
                is_Some (dict_get dst (states m)))
      ∧ (event t = None → truthy (guard t) = false →
         truthy (to_state t) = true).
Proof.
  intros Hv. split.
  - unfold valid, mbind, outcome_bind in Hv.
    destruct (for_each (check_transition m) _) as [[]| |]; simpl in Hv;
      [|done..].
    destruct (for_each (check_state m) _) as [[]| |]; simpl in Hv;
      by simplify_eq.
  - apply valid_Returns in Hv as [Hts _]. rewrite Forall_forall in Hts.
    intros t Ht. specialize (Hts t Ht). unfold check_transition in Hts.
    destruct (in_states m (Some (from_state t))) eqn:Hfrom; simpl in Hts;
      [|done].
    unfold in_states in Hfrom. apply bool_decide_eq_true in Hfrom.
    simpl in Hfrom.
    destruct (truthy (to_state t)) eqn:Hto; simpl in Hts.
    + destruct (in_states m (to_state t)) eqn:Hdst; simpl in Hts; [|done].
      split_and!; [done| |done].
      intros dst Hd _. rewrite Hd in Hdst. unfold in_states in Hdst.
      by apply bool_decide_eq_true in Hdst.
    + split_and!; [done| |].
      * intros dst Hd Hne. rewrite Hd in Hto. unfold truthy in Hto.
        by rewrite bool_decide_false in Hto.
      * intros He Hg. rewrite He, Hg in Hts. by simpl in Hts.
Qed.

Lemma valid_transitions_ok_witness :
  is_Some (dict_get "A" (states ex_root_A))
  ∧ is_Some (dict_get "B" (states ex_root_A)).
Proof.
  destruct (valid_transitions_ok ex_root_A true) as [_ H]; [by vm_compute|].
  destruct (H (tr_go "A" "B")) as (Hfrom & Hto & _); [left|].
  split; [exact Hfrom|]. by apply (Hto "B").
Defined.

Lemma check_state_Returns m name state :
  check_state m (name, state) = Returns () →
  check_history m name state = Returns ()
  ∧ check_composite state = Returns ()
  ∧ check_compound m name state = Returns ().
Proof.
  unfold check_state, mbind, outcome_bind.
  destruct (check_history m name state) as [[]| |]; simpl; [|done..].
  by destruct (check_composite state) as [[]| |].
Qed.

(** X15: when [valid] returns, every registered state passes its checks:
    a composite state has at least one child; a history state has a
    parent that is registered as a compound state, and its [initial],
    when a non-empty name, has the same parent; a compound state with a
    parent of non-empty name has an [initial] recorded as its child. *)
Theorem valid_states_ok m b :
  valid m = Returns b →
  ∀ name state, (name, state) ∈ states m →
    (∀ ch, state_children state = Some ch → ch ≠ [])
    ∧ (is_history state →
       ∃ p ps, parent m !! name = Some (Some p)
               ∧ dict_get p (states m) = Some ps ∧ is_compound ps
               ∧ ∀ i, history_initial state = Some i → i ≠ "" →
                      parent m !! i = Some (Some p))
    ∧ (∀ i p, compound_initial state = Some i →
              parent m !! name = Some (Some p) → p ≠ "" →
              parent m !! i = Some (Some name)).
Proof.
  intros [_ Hs]%valid_Returns name state Hin.
  rewrite Forall_forall in Hs.
  destruct (check_state_Returns m name state (Hs _ Hin))
    as (Hhist & Hcomp & Hcpd).
  split_and!.
  - intros ch Hch. unfold check_composite in Hcomp. rewrite Hch in Hcomp.
    by destruct ch.
  - intros Hh. destruct state as [| | | n mem init deep |]; try done.
    simpl in Hhist. unfold parent_lookup, states_lookup in Hhist.
    destruct (parent m !! name) as [pn|] eqn:Hpn; simpl in Hhist; [|done].
    destruct pn as [p|]; simpl in Hhist; [|done].
    destruct (dict_get p (states m)) as [ps|] eqn:Hps; simpl in Hhist;
      [|done].
    destruct (is_compound ps) eqn:Hc; simpl in Hhist; [|done].
    exists p, ps. split_and!; [done..|by rewrite Hc|].
    intros i Hi Hne. simpl in Hi. subst init.
    assert (truthy (Some i) = true) as Ht.
    { unfold truthy. by rewrite bool_decide_false. }
    rewrite Ht in Hhist.
    destruct (parent m !! i) as [pi|]; simpl in Hhist; [|done].
    case_bool_decide; simpl in Hhist; [congruence|done].
  - intros i p Hi Hp Hne.
    destruct state as [| n i' ts en ex ch | | |]; simplify_eq/=.
    unfold parent_lookup in Hcpd. rewrite Hp in Hcpd. simpl in Hcpd.
    assert (truthy (Some p) = true) as Ht.
    { unfold truthy. by rewrite bool_decide_false. }
    rewrite Ht in Hcpd.
    destruct (parent m !! i) as [pi|]; simpl in Hcpd; [|done].
    case_bool_decide; simpl in Hcpd; [congruence|done].
Qed.

Lemma valid_states_ok_witness :
  ["X1"; "H"] ≠ []
  ∧ (∃ p ps, parent ex_history !! "H" = Some (Some p)
             ∧ dict_get p (states ex_history) = Some ps ∧ is_compound ps
             ∧ parent ex_history !! "X1" = Some (Some p))
  ∧ parent ex_history !! "X1" = Some (Some "R1").
Proof.
  pose proof (valid_states_ok ex_history true ltac:(by vm_compute)) as H.
  destruct (H "R1" (CompoundState "R1" "X1" [] None None ["X1"; "H"]))
    as (Hch & _ & Hinit); [apply dict_get_Some_elem; by vm_compute|].
  destruct (H "H" (HistoryState "H" [Some "X1"] (Some "X1") false))
    as (_ & Hhist & _); [apply dict_get_Some_elem; by vm_compute|].
  split_and!.
  - by apply Hch.
  - destruct Hhist as (p & ps & Hp & Hps & Hc & Hi); [done|].
    exists p, ps. split_and!; [done..|]. by apply (Hi "X1").
  - by apply (Hinit "X1" "P"); [|vm_compute|].
Defined.

(** The two errors of the transition loop, by what the transition is. *)
Lemma check_transition_unknown m t :
  refers_to_unknown_state m t ↔
  check_transition m t = Raises (ValueError (UnknownStateRef t)).
Proof.
  unfold refers_to_unknown_state, check_transition, in_states. simpl.
  destruct (dict_get (from_state t) (states m)) as [s|] eqn:Hfrom.
  - rewrite bool_decide_true by by eexists. simpl.
    destruct (to_state t) as [dst|] eqn:Hto.
    + destruct (truthy (Some dst)) eqn:Htr; simpl.
      * apply truthy_Some in Htr.
        destruct (dict_get dst (states m)) as [s'|] eqn:Hdst.
        -- rewrite bool_decide_true by by eexists. simpl. split.
           ++ intros [?|(d & [= <-] & _ & ?)]; congruence.
           ++ by repeat case_match.
        -- rewrite bool_decide_false by by intros [? ?]. simpl.
           split; [done|]. intros _. right. by exists dst.
      * split.
        -- intros [?|(d & [= <-] & Hne & _)]; [done|].
           apply truthy_Some in Hne. congruence.
        -- by repeat case_match.
    + unfold truthy at 1. simpl. split.
      * by intros [?|(d & ? & _)].
      * by repeat case_match.
  - rewrite bool_decide_false by by intros [? ?]. simpl.
    split; [done|]. intros _. by left.
Qed.

Lemma check_transition_aimless m t :
  ¬ refers_to_unknown_state m t → internal_eventless_guardless t →
  check_transition m t = Raises (ValueError (InternalEventlessGuardless t)).
Proof.
  intros Hknown (He & Hg & Hto).
  destruct (check_transition_cases m t) as [H|[H|H]];
    [|by apply check_transition_unknown in H|done].
  unfold check_transition in H. rewrite He, Hg, Hto in H.
  rewrite bool_decide_false in H by by intros [? ?]. simpl in H.
  by repeat case_match.
Qed.

Lemma check_transition_passes m t :
  check_transition m t = Returns () ↔
  ¬ refers_to_unknown_state m t ∧ ¬ internal_eventless_guardless t.
Proof.
  split.
  - intros H. assert (¬ refers_to_unknown_state m t) as Hu.
    { intros Hu%check_transition_unknown. congruence. }
    split; [done|]. intros Ha.
    pose proof (check_transition_aimless m t Hu Ha). congruence.
  - intros [Hu Ha].
    destruct (check_transition_cases m t) as [H|[H|H]]; [done|..].
    + by apply check_transition_unknown in H.
    + destruct Ha. unfold check_transition in H.
      repeat case_match; try done.
      unfold internal_eventless_guardless.
      repeat match goal with
             | H : _ && _ = true |- _ => apply andb_true_iff in H as [? ?]
             | H : negb _ = true |- _ => apply negb_true_iff in H
             end.
      split_and!; try done.
      destruct (event t); [|done].
      match goal with
      | H : bool_decide _ = false |- _ =>
          apply bool_decide_eq_false in H; destruct H; by eexists
      end.
Qed.

(** X16: violations in the transitions take precedence over all
    violations in the states, and among them the first counts: for the
    first transition of [transitions] that refers to an unknown state or
    is internal, eventless and guardless, [valid] raises the [ValueError]
    of that transition, for the unknown state when it refers to one and
    for being internal, eventless and guardless otherwise, whatever the
    later transitions and the states are. *)
Theorem valid_transition_errors_first m pre t post :
  transitions m = pre ++ t :: post →
  Forall (λ t', ¬ refers_to_unknown_state m t'
                ∧ ¬ internal_eventless_guardless t') pre →
  (refers_to_unknown_state m t →
   valid m = Raises (ValueError (UnknownStateRef t)))
  ∧ (¬ refers_to_unknown_state m t → internal_eventless_guardless t →
     valid m = Raises (ValueError (InternalEventlessGuardless t))).
Proof.
  intros Hts Hpre.
  assert (Forall (λ t', check_transition m t' = Returns ()) pre) as Hpre'.
  { eapply Forall_impl; [exact Hpre|]. intros t' Ht'.
    by apply check_transition_passes. }
  split.
  - intros Hu%check_transition_unknown. apply valid_Raises_first. left.
    by exists pre, t, post.
  - intros Hu Ha. apply valid_Raises_first. left.
    exists pre, t, post. split_and!; [done..|].
    by apply check_transition_aimless.
Qed.

Lemma valid_transition_errors_first_witness :
  transitions ex_bad_transitions
  = [tr_go "X" "root"; tr_go "X" "Z"; mkTransition "X" None None None None]
  ∧ valid ex_bad_transitions
    = Raises (ValueError (UnknownStateRef (tr_go "X" "Z")))
  ∧ valid (build [RegTransition (mkTransition "X" None None None None);
                  RegTransition (tr_go "X" "Z")] ex_bad_initial)
    = Raises (ValueError
                (InternalEventlessGuardless
                   (mkTransition "X" None None None None))).
Proof.
  split; [reflexivity|]. split.
  - apply (valid_transition_errors_first ex_bad_transitions
             [tr_go "X" "root"] (tr_go "X" "Z")
             [mkTransition "X" None None None None]).
    + reflexivity.
    + repeat constructor.
      * intros [H|(dst & [= <-] & _ & H)]; by vm_compute in H.
      * by intros (H & _).
    + right. exists "Z". by vm_compute.
  - apply (valid_transition_errors_first _ []
             (mkTransition "X" None None None None) [tr_go "X" "Z"]).
    + reflexivity.
    + constructor.
    + intros [H|(dst & H & _)]; by vm_compute in H.
    + by vm_compute.
Defined.

(** X17: the check of a history state registered at top level (parent
    [None]) raises a [KeyError] on [None], not a [ValueError]: it looks
    the parent up in [states] before testing its class. [valid] cannot
    return on such a machine, and raises that [KeyError] when no
    transition and no state before the history state fails its check. *)
Theorem valid_top_level_history m pre name state post :
  states m = pre ++ (name, state) :: post →
  is_history state →
  parent m !! name = Some None →
  check_state m (name, state) = Raises (KeyError None)
  ∧ (∀ b, valid m ≠ Returns b)
  ∧ (Forall (λ t, check_transition m t = Returns ()) (transitions m) →
     Forall (λ item, check_state m item = Returns ()) pre →
     valid m = Raises (KeyError None)).
Proof.
  intros Hs Hh Hp.
  assert (check_state m (name, state) = Raises (KeyError None)) as Hcs.
  { destruct state; try done. unfold check_state. simpl.
    unfold parent_lookup. by rewrite Hp. }
  split_and!; [done| |].
  - intros b [_ Hall]%valid_Returns. rewrite Forall_forall in Hall.
    assert ((name, state) ∈ states m) as Hin.
    { rewrite Hs. apply elem_of_app. right. left. }
    specialize (Hall _ Hin). congruence.
  - intros Hts Hpre. apply valid_Raises_first. right. split; [done|].
    by exists pre, (name, state), post.
Qed.

Lemma valid_top_level_history_witness :
  valid ex_top_history = Raises (KeyError None).
Proof.
  destruct (valid_top_level_history ex_top_history
              [("root", CompoundState "root" "A" [] None None ["A"; "B"]);
               ("A", BasicState "A" [tr_go "A" "B"] None None);
               ("B", BasicState "B" [] None None)]
              "H" (HistoryState "H" [None] None false) [])
    as (_ & _ & H).
  - reflexivity.
  - done.
  - by vm_compute.
  - apply H; vm_compute; by repeat constructor.
Defined.

(** ** The registry as a whole: invariants of registration *)

Lemma dict_get_set_is_Some {V} k k' (v : V) d :
  is_Some (dict_get k (dict_set k' v d)) ↔ k = k' ∨ is_Some (dict_get k d).
Proof.
  destruct (decide (k' = k)) as [->|Hne].
  - rewrite dict_get_set_eq. split; [by left|by eexists].
  - rewrite dict_get_set_ne by done. split; [by right|].
    by intros [->|?].
Qed.

Lemma keys_agree_registered m state pn :
  keys_agree m → keys_agree (registered m state pn).
Proof.
  intros Hk k. unfold registered. simpl.
  rewrite dict_get_set_is_Some, lookup_insert_is_Some, (Hk k). split.
  - intros [->|H]; [by left|].
    destruct (decide (state_name state = k)); [by left|by right].
  - intros [->|[_ H]]; [by left|by right].
Qed.

Lemma keys_agree_update m key s' :
  is_Some (dict_get key (states m)) → keys_agree m →
  keys_agree (set_states (dict_set key s') m).
Proof.
  intros Hkey Hk k. simpl. rewrite dict_get_set_is_Some, <-(Hk k).
  split; [by intros [->|?]|auto].
Qed.

Lemma keys_agree_register m r :
  keys_agree m → keys_agree (snd (register r m)).
Proof.
  intros Hk. destruct r as [state p|t]; simpl.
  - rewrite register_state_run. simpl.
    pose proof (keys_agree_registered m state (parent_name p) Hk) as Hk1.
    destruct (parent_name p) as [key|]; simpl; [|done].
    destruct (dict_get key _) as [ps|] eqn:Hps; simpl; [|done].
    destruct (add_child ps (state_name state)); simpl; [|done..].
    apply (keys_agree_update (registered m state (Some key))); [|done].
    by eexists.
  - rewrite register_transition_run. simpl.
    destruct (dict_get (from_state t) (states m)) as [s|] eqn:Hs; [|done].
    destruct (add_transition s t); simpl; [|done..].
    apply (keys_agree_update (set_transitions _ m)); [by eexists|done].
Qed.

(** X18: the registrations keep [states] and [parent] on the same keys:
    after any sequence of [register_state] and [register_transition]
    calls on a new machine, whether they all return or one of them
    raises, a name is a key of [states] exactly when it is a key of
    [parent]. *)
Theorem keys_agree_build rs name initial on_entry :
  keys_agree (build rs (new_machine name initial on_entry)).
Proof.
  unfold build.
  assert (keys_agree (new_machine name initial on_entry)) as Hnew.
  { intros k. simpl. rewrite lookup_empty. split; by intros [? ?]. }
  revert Hnew. generalize (new_machine name initial on_entry).
  induction rs as [|r rs IH]; intros m Hk; [done|].
  cbn [register_all]. unfold mbind, M_bind.
  pose proof (keys_agree_register m r Hk) as Hk'.
  destruct (register r m) as [[[]| |] m']; simpl in *; [|done..].
  by apply IH.
Qed.

Lemma child_of_kids m c p : child_of m c p ↔ c ∈ kids m p.
Proof.
  unfold child_of, kids. split.
  - by intros (st & -> & Hc).
  - destruct (dict_get p (states m)) as [st|]; [eauto|].
    by intros ?%elem_of_nil.
Qed.

Lemma add_child_kids ps c ps' :
  add_child ps c = Returns ps' → children_of ps' = children_of ps ++ [c].
Proof. destruct ps; simpl; try done; by intros [= <-]. Qed.

Lemma add_transition_kids s t s' :
  add_transition s t = Returns s' → children_of s' = children_of s.
Proof. destruct s; simpl; try done; by intros [= <-]. Qed.

Lemma consistent_register_transition m t :
  consistent m → consistent (snd (register_transition t m)).
Proof.
  intros [Hc Htop]. rewrite register_transition_run. simpl.
  destruct (dict_get (from_state t) (states m)) as [s|] eqn:Hs;
    [|by split].
  destruct (add_transition s t) as [s'| |] eqn:Hadd; simpl; [|by split..].
  split; [|done]. intros c p. rewrite <-Hc, !child_of_kids.
  unfold kids. simpl.
  destruct (decide (from_state t = p)) as [<-|Hne].
  - by rewrite dict_get_set_eq, Hs, (add_transition_kids _ _ _ Hadd).
  - by rewrite dict_get_set_ne.
Qed.

Lemma consistent_register_state m state p m' :
  consistent m →
  parent m !! state_name state = None →
  dict_get (state_name state) (states m) = None →
  children_of state = [] →
  (parent_name p = None
   ∨ ∃ key ps, parent_name p = Some key
               ∧ dict_get key (states m) = Some ps ∧ is_composite ps) →
  register_state state p m = (Returns (), m') →
  consistent m'.
Proof.
  intros [Hc Htop] Hfresh Hnew Hkids Hparent.
  rewrite register_state_run. simpl.
  assert (∀ q, state_name state ∉ kids m q) as Hnotkid.
  { intros q Hq%child_of_kids%Hc. congruence. }
  destruct Hparent as [->|(key & ps & -> & Hps & Hcomp)]; simpl.
  - intros [= <-]. split.
    + intros c q. rewrite child_of_kids. unfold kids. simpl.
      destruct (decide (state_name state = q)) as [<-|Hne].
      * rewrite dict_get_set_eq, Hkids, lookup_insert.
        split; [by intros ?%elem_of_nil|].
        case_decide; [done|]. intros Hq%Hc%child_of_kids.
        unfold kids in Hq. rewrite Hnew in Hq. by apply elem_of_nil in Hq.
      * rewrite dict_get_set_ne by done. fold (kids m q).
        rewrite lookup_insert. case_decide as Hcn.
        -- subst c. split; [by intros ?%Hnotkid|done].
        -- by rewrite <-child_of_kids.
    + intros c. simpl. rewrite elem_of_app, list_elem_of_singleton,
        lookup_insert.
      case_decide as Hcn.
      * subst c. split; [done|by right].
      * rewrite Htop. split; [by intros [?|?]|by left].
  - assert (state_name state ≠ key) as Hne by congruence.
    rewrite dict_get_set_ne, Hps by done.
    destruct (add_child ps (state_name state)) as [ps'| |] eqn:Hadd;
      [|done..].
    intros [= <-]. apply add_child_kids in Hadd. split.
    + intros c q. rewrite child_of_kids. unfold kids. simpl.
      rewrite lookup_insert.
      destruct (decide (key = q)) as [<-|Hkq].
      * rewrite dict_get_set_eq, Hadd, elem_of_app, list_elem_of_singleton.
        assert (children_of ps = kids m key) as ->
          by (unfold kids; by rewrite Hps).
        case_decide as Hcn.
        -- subst c. split; [done|by right].
        -- rewrite <-child_of_kids, Hc. split; [by intros [?|?]|by left].
      * rewrite dict_get_set_ne by done.
        destruct (decide (state_name state = q)) as [<-|Hnq].
        -- rewrite dict_get_set_eq, Hkids.
           split; [by intros ?%elem_of_nil|].
           case_decide; [congruence|]. intros Hq%Hc%child_of_kids.
           unfold kids in Hq. rewrite Hnew in Hq.
           by apply elem_of_nil in Hq.
        -- rewrite dict_get_set_ne by done. fold (kids m q).
           case_decide as Hcn.
           ++ subst c. split; [by intros ?%Hnotkid|congruence].
           ++ by rewrite <-child_of_kids.
    + intros c. simpl. rewrite lookup_insert. case_decide as Hcn.
      * subst c. rewrite Htop. split; congruence.
      * apply Htop.
Qed.

(** The example [ex_root_A] is built top-down. *)
Lemma ex_root_A_built : built ex_root_A.
Proof.
  pose (m0 := new_machine "m" "root" None).
  pose (m1 := snd (register_state (CompoundState "root" "A" [] None None [])
                     (ParentName None) m0)).
  pose (m2 := snd (register_state (BasicState "A" [] None None)
                     (ParentName (Some "root")) m1)).
  pose (m3 := snd (register_state (BasicState "B" [] None None)
                     (ParentName (Some "root")) m2)).
  assert (built m1) as H1.
  { apply (built_state m0 (CompoundState "root" "A" [] None None [])
             (ParentName None) m1);
      [apply built_new|by vm_compute|by vm_compute|done|by left
      |by vm_compute]. }
  assert (built m2) as H2.
  { apply (built_state m1 (BasicState "A" [] None None)
             (ParentName (Some "root")) m2);
      [done|by vm_compute|by vm_compute|done| |by vm_compute].
    right. exists "root", (CompoundState "root" "A" [] None None []).
    split_and!; [done|by vm_compute|done]. }
  assert (built m3) as H3.
  { apply (built_state m2 (BasicState "B" [] None None)
             (ParentName (Some "root")) m3);
      [done|by vm_compute|by vm_compute|done| |by vm_compute].
    right. exists "root", (CompoundState "root" "A" [] None None ["A"]).
    split_and!; [done|by vm_compute|done]. }
  assert (ex_root_A = snd (register_transition (tr_go "A" "B") m3)) as ->
    by by vm_compute.
  by apply built_transition.
Qed.

Lemma built_invariant m : built m → consistent m ∧ keys_agree m.
Proof.
  induction 1 as [name initial on_entry
                 |m state p m' Hb [IHc IHk] Hfresh Hnew Hkids Hparent Hrun
                 |m t Hb [IHc IHk]].
  - split; [split|].
    + intros c p. rewrite child_of_kids. unfold kids. simpl.
      rewrite lookup_empty. split; [by intros ?%elem_of_nil|done].
    + intros c. simpl. rewrite lookup_empty.
      split; [by intros ?%elem_of_nil|done].
    + intros k. simpl. rewrite lookup_empty. split; by intros [? ?].
  - split; [by eapply consistent_register_state|].
    pose proof (keys_agree_register m (RegState state p) IHk) as Hk.
    simpl in Hk. by rewrite Hrun in Hk.
  - split; [by apply consistent_register_transition|].
    apply (keys_agree_register m (RegTransition t) IHk).
Qed.

(** X19: a machine built top-down (fresh names, freshly constructed
    states, every parent absent or registered before as a composite) has
    children lists and parent index that agree: a state is listed under
    a composite exactly when that composite is its parent in the index,
    and is a top-level child exactly when its parent is [None]; every
    listed child, and the composite listing it, is registered. *)
Theorem built_consistent m :
  built m →
  consistent m
  ∧ ∀ c p, child_of m c p →
           is_Some (dict_get c (states m)) ∧ is_Some (dict_get p (states m)).
Proof.
  intros [Hc Hk]%built_invariant. split; [done|].
  intros c p Hcp. split.
  - apply Hk. destruct Hc as [Hc _]. apply Hc in Hcp. by eexists.
  - destruct Hcp as (st & Hst & _). by eexists.
Qed.

Lemma built_consistent_witness :
  consistent ex_root_A ∧ is_Some (dict_get "A" (states ex_root_A)).
Proof.
  destruct (built_consistent ex_root_A ex_root_A_built) as [Hc Hreg].
  split; [done|]. apply (Hreg "A" "root").
  eexists. split; [reflexivity|]. left.
Defined.

(** ** Descendants and ancestors are two views of one tree *)

Lemma descendant_extend_down m x p s :
  child_of m x p → descendant m p s → descendant m x s.
Proof.
  intros Hx. induction 1 as [p s Hp|p c s Hc Hd IH].
  - eapply descendant_step; [exact Hp|]. by apply descendant_child.
  - eapply descendant_step; [exact Hc|]. by apply IH.
Qed.

Lemma parent_chain_descendant m x l s :
  consistent m → parent_chain m x l → s ∈ l → descendant m x s.
Proof.
  intros [Hc _]. induction 1 as [x Hx|x p l Hx Hchain IH].
  - by intros ?%elem_of_nil.
  - apply Hc in Hx. intros [->|Hs]%elem_of_cons.
    + by apply descendant_child.
    + eapply descendant_extend_down; [exact Hx|]. by apply IH.
Qed.

Lemma descendant_parent_chain m x s l :
  consistent m → descendant m x s → parent_chain m x l → s ∈ l.
Proof.
  intros [Hc _] Hd. revert l.
  induction Hd as [x s Hx|x c s Hcs Hd IH]; intros l Hl.
  - apply Hc in Hx. inversion Hl; subst; [congruence|].
    assert (p = s) as -> by congruence. left.
  - specialize (IH l Hl).
    apply list_elem_of_split in IH as (pre & suf & ->).
    apply parent_chain_suffix in Hl. apply Hc in Hcs.
    inversion Hl; subst; [congruence|].
    assert (p = s) as -> by congruence.
    apply elem_of_app. right. right. left.
Qed.

(** X20: on a machine whose children lists and parent index agree,
    [descendants_for] and [ancestors_for] are two views of one tree: for
    a state [s] with a finite subtree and a state [x] with a finite
    parent chain without empty names, both calls return, and [x] is in
    the descendants of [s] exactly when [s] is in the ancestors of [x]. *)
Theorem descendants_ancestors_dual m x s l n fuel :
  consistent m →
  parent_chain m x l → "" ∉ l → length l ≤ fuel →
  subtree_size m s n → n ≤ fuel →
  ∃ out anc,
    descendants_for fuel m s = Returns out
    ∧ ancestors_for fuel m x = Returns anc
    ∧ (x ∈ out ↔ s ∈ anc).
Proof.
  intros Hc Hl Hne Hlen Hs Hn.
  destruct (descendants_for_terminates m fuel s n Hs Hn) as [out Hout].
  exists out, l. split_and!; [done| |].
  - by apply ancestors_for_chain_nonempty.
  - rewrite (descendants_for_spec m fuel s out Hout x). split.
    + intros Hd. by eapply descendant_parent_chain.
    + by eapply parent_chain_descendant.
Qed.

Lemma descendants_ancestors_dual_witness :
  ∃ out anc,
    descendants_for 3 ex_root_A "root" = Returns out
    ∧ ancestors_for 3 ex_root_A "B" = Returns anc
    ∧ ("B" ∈ out ↔ "root" ∈ anc).
Proof.
  destruct (built_invariant ex_root_A ex_root_A_built) as [Hc _].
  apply (descendants_ancestors_dual ex_root_A "B" "root" ["root"] 3 3 Hc).
  - apply chain_step; [by vm_compute|]. apply chain_top. by vm_compute.
  - by intros ?%list_elem_of_singleton.
  - simpl. lia.
  - eapply (subtree_node _ _ _ [1; 1]); [reflexivity|].
    repeat constructor;
      (eapply (subtree_node _ _ _ []); [reflexivity|constructor]).
  - lia.
Defined.

(** ** Machines built top-down: every query returns *)

Lemma register_state_parent m state p r m' :
  register_state state p m = (r, m') →
  parent m' = <[state_name state := parent_name p]> (parent m).
Proof.
  rewrite register_state_run. simpl.
  destruct (parent_name p) as [key|]; simpl; [|by intros [= _ <-]].
  destruct (dict_get key _) as [ps|]; simpl; [|by intros [= _ <-]].
  destruct (add_child ps (state_name state)); by intros [= _ <-].
Qed.

Lemma register_transition_parent m t :
  parent (snd (register_transition t m)) = parent m.
Proof.
  rewrite register_transition_run. simpl.
  destruct (dict_get (from_state t) (states m)) as [s|]; [|done].
  by destruct (add_transition s t).
Qed.

Lemma parent_chain_transfer m m' s l :
  (∀ k, is_Some (parent m !! k) → parent m' !! k = parent m !! k) →
  parent_chain m s l → parent_chain m' s l.
Proof.
  intros Hsame. induction 1 as [s Hs|s p l Hs Hc IH].
  - apply chain_top. rewrite Hsame; [done|by eexists].
  - apply chain_step; [|done]. rewrite Hsame; [done|by eexists].
Qed.

Lemma built_chain m :
  built m → ∀ s, is_Some (parent m !! s) → ∃ l, parent_chain m s l.
Proof.
  induction 1 as [name initial on_entry
                 |m state p m' Hb IH Hfresh Hnew Hkids Hparent Hrun
                 |m t Hb IH]; intros s Hs.
  - simpl in Hs. rewrite lookup_empty in Hs. by destruct Hs.
  - pose proof (register_state_parent _ _ _ _ _ Hrun) as Hp.
    assert (∀ k, is_Some (parent m !! k) → parent m' !! k = parent m !! k)
      as Hsame.
    { intros k Hk. rewrite Hp, lookup_insert_ne; [done|].
      intros <-. rewrite Hfresh in Hk. by destruct Hk. }
    destruct (decide (s = state_name state)) as [->|Hne].
    + destruct Hparent as [Hnone|(key & ps & Hkey & Hps & _)].
      * exists []. apply chain_top. by rewrite Hp, lookup_insert_eq, Hnone.
      * destruct (built_invariant m Hb) as [_ Hk].
        destruct (IH key) as [l Hl]; [apply Hk; by eexists|].
        exists (key :: l). apply chain_step.
        -- by rewrite Hp, lookup_insert_eq, Hkey.
        -- by eapply parent_chain_transfer.
    + rewrite Hp, lookup_insert_ne in Hs by done.
      destruct (IH s Hs) as [l Hl]. exists l.
      by eapply parent_chain_transfer.
  - rewrite register_transition_parent in Hs.
    destruct (IH s Hs) as [l Hl]. exists l.
    eapply parent_chain_transfer; [|done].
    intros k _. by rewrite register_transition_parent.
Qed.

Lemma Forall2_rebuild {A} (P Q : A → nat → Prop) l ns :
  Forall2 P l ns →
  (∀ c nc, nc ∈ ns → P c nc → ∃ nc', Q c nc') →
  ∃ ns', Forall2 Q l ns'.
Proof.
  induction 1 as [|c nc l ns Hc Hl IH]; intros HPQ.
  - exists []. constructor.
  - destruct (HPQ c nc) as [nc' Hnc']; [left|done|].
    destruct IH as [ns' Hns'].
    { intros c0 n0 Hn0. apply HPQ. by right. }
    exists (nc' :: ns'). by constructor.
Qed.

(** A finite subtree stays finite when states keep their children and
    some gain new children that head one-node subtrees. *)
Lemma subtree_size_grow m m' :
  (∀ q st, dict_get q (states m) = Some st →
     ∃ st' extra, dict_get q (states m') = Some st'
                  ∧ children_of st' = children_of st ++ extra
                  ∧ Forall (λ c, subtree_size m' c 1) extra) →
  ∀ n q, subtree_size m q n → ∃ n', subtree_size m' q n'.
Proof.
  intros Hgrow n. induction (lt_wf n) as [n _ IH]. intros q Hq.
  inversion Hq as [? st ns Hst Hch]; subst.
  destruct (Hgrow q st Hst) as (st' & extra & Hst' & Hkids & Hextra).
  destruct (Forall2_rebuild (subtree_size m) (subtree_size m')
              (children_of st) ns Hch) as [ns' Hns'].
  { intros c nc Hnc Hc. apply (IH nc); [|done].
    pose proof (sum_list_with_in nc id ns Hnc). simpl in *. lia. }
  exists (S (sum_list (ns' ++ replicate (length extra) 1))).
  apply (subtree_node m' q st'); [done|]. rewrite Hkids.
  apply Forall2_app; [done|].
  clear -Hextra. induction Hextra; simpl; by constructor.
Qed.

Lemma built_subtree m :
  built m → ∀ s, is_Some (dict_get s (states m)) → ∃ n, subtree_size m s n.
Proof.
  induction 1 as [name initial on_entry
                 |m state p m' Hb IH Hfresh Hnew Hkids Hparent Hrun
                 |m t Hb IH]; intros s Hs.
  - simpl in Hs. by destruct Hs.
  - rewrite register_state_run in Hrun. simpl in Hrun.
    destruct Hparent as [Hnone|(key & ps & Hkey & Hps & Hcomp)].
    + rewrite Hnone in Hrun. simpl in Hrun. injection Hrun as <-.
      simpl in Hs. apply dict_get_set_is_Some in Hs as [->|Hs].
      * exists 1. apply (subtree_node _ _ state []);
          [apply dict_get_set_eq|]. rewrite Hkids. constructor.
      * destruct (IH s Hs) as [n Hn].
        apply (subtree_size_grow m _) with (n := n); [|done].
        intros q st Hq. exists st, []. split_and!; [|by rewrite app_nil_r|done].
        simpl. rewrite dict_get_set_ne; [done|congruence].
    + rewrite Hkey in Hrun. simpl in Hrun.
      assert (state_name state ≠ key) as Hne by congruence.
      rewrite dict_get_set_ne, Hps in Hrun by done.
      destruct (add_child ps (state_name state)) as [ps'| |] eqn:Hadd;
        [|done..].
      injection Hrun as <-. apply add_child_kids in Hadd.
      assert (subtree_size
                (set_states (dict_set key ps')
                   (registered m state (Some key))) (state_name state) 1)
        as Hone.
      { apply (subtree_node _ _ state []).
        - simpl. rewrite dict_get_set_ne by done. apply dict_get_set_eq.
        - rewrite Hkids. constructor. }
      simpl in Hs. rewrite !dict_get_set_is_Some in Hs.
      assert (s = state_name state ∨ is_Some (dict_get s (states m)))
        as [->|Hs'].
      { destruct Hs as [->|[->|?]]; [right; by eexists|by left|by right]. }
      * by exists 1.
      * destruct (IH s Hs') as [n Hn].
        apply (subtree_size_grow m _) with (n := n); [|done].
        intros q st Hq. destruct (decide (q = key)) as [->|Hqk].
        -- exists ps', [state_name state]. simpl.
           rewrite dict_get_set_eq. split_and!; [done| |by constructor].
           congruence.
        -- exists st, []. simpl.
           rewrite !dict_get_set_ne by congruence.
           split_and!; [done|by rewrite app_nil_r|done].
  - rewrite register_transition_run in Hs |- *. simpl in Hs |- *.
    destruct (dict_get (from_state t) (states m)) as [src|] eqn:Hsrc.
    + destruct (add_transition src t) as [src'| |] eqn:Hadd; simpl in *.
      * apply dict_get_set_is_Some in Hs.
        assert (is_Some (dict_get s (states m))) as Hs'.
        { destruct Hs as [->|?]; [by eexists|done]. }
        destruct (IH s Hs') as [n Hn].
        apply (subtree_size_grow m _) with (n := n); [|done].
        intros q st Hq. destruct (decide (q = from_state t)) as [->|Hqf].
        -- exists src', []. simpl. rewrite dict_get_set_eq.
           split_and!; [done| |done]. rewrite app_nil_r.
           apply add_transition_kids in Hadd. congruence.
        -- exists st, []. simpl. rewrite dict_get_set_ne by done.
           split_and!; [done|by rewrite app_nil_r|done].
      * destruct (IH s Hs) as [n Hn].
        apply (subtree_size_grow m _) with (n := n); [|done].
        intros q st Hq. exists st, [].
        split_and!; [done|by rewrite app_nil_r|done].
      * destruct (IH s Hs) as [n Hn].
        apply (subtree_size_grow m _) with (n := n); [|done].
        intros q st Hq. exists st, [].
        split_and!; [done|by rewrite app_nil_r|done].
    + destruct (IH s Hs) as [n Hn].
      apply (subtree_size_grow m _) with (n := n); [|done].
      intros q st Hq. exists st, [].
      split_and!; [done|by rewrite app_nil_r|done].
Qed.

(** X21: on a machine built top-down every hierarchy query on registered
    states returns, given enough fuel: [ancestors_for], [depth_of] (the
    length of the ancestors plus one), [least_common_ancestor] and
    [descendants_for]; none of them raises or loops. *)
Theorem built_queries_return m s1 s2 :
  built m →
  is_Some (dict_get s1 (states m)) → is_Some (dict_get s2 (states m)) →
  ∃ fuel0, ∀ fuel, fuel0 ≤ fuel →
    (∃ anc, ancestors_for fuel m s1 = Returns anc
            ∧ depth_of fuel m (Some s1) = Returns (length anc + 1))
    ∧ (∃ r, least_common_ancestor fuel m s1 s2 = Returns r)
    ∧ (∃ out, descendants_for fuel m s1 = Returns out).
Proof.
  intros Hb H1 H2. destruct (built_invariant m Hb) as [_ Hk].
  destruct (built_chain m Hb s1) as [l1 Hl1]; [by apply Hk|].
  destruct (built_chain m Hb s2) as [l2 Hl2]; [by apply Hk|].
  destruct (built_subtree m Hb s1 H1) as [n Hn].
  exists (length l1 + length l2 + n). intros fuel Hfuel.
  pose proof (ancestors_for_chain m s1 l1 fuel Hl1 ltac:(lia)) as Ha1.
  pose proof (ancestors_for_chain m s2 l2 fuel Hl2 ltac:(lia)) as Ha2.
  split_and!.
  - eexists. split; [done|]. unfold depth_of. by rewrite Ha1.
  - eexists. apply least_common_ancestor_Returns. eauto.
  - apply (descendants_for_terminates m fuel s1 n Hn). lia.
Qed.

Lemma built_queries_return_witness :
  ∃ fuel0, ∀ fuel, fuel0 ≤ fuel →
    (∃ anc, ancestors_for fuel ex_root_A "A" = Returns anc
            ∧ depth_of fuel ex_root_A (Some "A") = Returns (length anc + 1))
    ∧ (∃ r, least_common_ancestor fuel ex_root_A "A" "B" = Returns r)
    ∧ (∃ out, descendants_for fuel ex_root_A "A" = Returns out).
Proof.
  apply (built_queries_return ex_root_A "A" "B" ex_root_A_built);
    by eexists.
Defined.

Lemma subtrees_common_fuel m states_ :
  Forall (λ s, ∃ n, subtree_size m s n) states_ →
  ∃ fuel0, ∀ fuel, fuel0 ≤ fuel →
    Forall (λ s, ∃ n, subtree_size m s n ∧ n ≤ fuel) states_.
Proof.
  induction 1 as [|s states_ [n Hn] _ [fuel0 IH]].
  - exists 0. constructor.
  - exists (n + fuel0). intros fuel Hfuel. constructor.
    + exists n. split; [done|lia].
    + apply IH. lia.
Qed.

(** X22: on a machine built top-down, [leaf_for] returns for every list
    of registered states, given enough fuel, and a state is in the result
    exactly when it is in the input and no other input state is among its
    descendants. *)
Theorem built_leaf_for_returns m states_ :
  built m →
  Forall (λ s, is_Some (dict_get s (states m))) states_ →
  ∃ fuel0, ∀ fuel, fuel0 ≤ fuel →
    ∃ leaves,
      leaf_for fuel m states_ = Returns leaves
      ∧ ∀ s, s ∈ leaves ↔
             s ∈ states_ ∧ ∀ d, d ∈ states_ → d ≠ s → ¬ descendant m d s.
Proof.
  intros Hb Hreg.
  destruct (subtrees_common_fuel m states_) as [fuel0 Hfuel0].
  { eapply Forall_impl; [exact Hreg|]. intros s Hs.
    by apply built_subtree. }
  exists fuel0. intros fuel Hfuel. specialize (Hfuel0 fuel Hfuel).
  assert (Forall (λ s, ∃ ds, descendants_for fuel m s = Returns ds) states_)
    as Hret.
  { eapply Forall_impl; [exact Hfuel0|].
    intros s (n & Hs & Hn). eauto using descendants_for_terminates. }
  eexists. split; [by apply leaf_loop_filter|].
  intros s. simpl. rewrite list_elem_of_filter. split.
  - intros [Hleaf Hin]. split; [done|].
    rewrite Forall_forall in Hfuel0.
    destruct (Hfuel0 s Hin) as (n & Hn & Hle).
    by apply (is_leaf_in_spec m fuel states_ s n).
  - intros [Hin Hspec]. split; [|done].
    rewrite Forall_forall in Hfuel0.
    destruct (Hfuel0 s Hin) as (n & Hn & Hle).
    by apply (is_leaf_in_spec m fuel states_ s n).
Qed.

Lemma built_leaf_for_returns_witness :
  ∃ fuel0, ∀ fuel, fuel0 ≤ fuel →
    ∃ leaves,
      leaf_for fuel ex_root_A ["root"; "A"] = Returns leaves
      ∧ ∀ s, s ∈ leaves ↔
             s ∈ ["root"; "A"]
             ∧ ∀ d, d ∈ ["root"; "A"] → d ≠ s → ¬ descendant ex_root_A d s.
Proof.
  apply (built_leaf_for_returns ex_root_A ["root"; "A"] ex_root_A_built).
  repeat constructor; by eexists.
Defined.

(** ** Transitions held by the states *)

Lemma add_child_transitions ps c ps' :
  add_child ps c = Returns ps' → state_transitions ps' = state_transitions ps.
Proof. destruct ps; simpl; try done; by intros [= <-]. Qed.

Lemma add_transition_transitions s t s' :
  add_transition s t = Returns s' →
  ∃ ts, state_transitions s = Some ts
        ∧ state_transitions s' = Some (ts ++ [t]).
Proof. destruct s; simpl; try done; intros [= <-]; by eexists. Qed.

Lemma sources_recorded_register m r :
  fresh_object r → sources_recorded m →
  sources_recorded (snd (register r m)).
Proof.
  intros Hfresh Hrec. destruct r as [state p|t]; simpl in *.
  - rewrite register_state_run. simpl.
    assert (sources_recorded (registered m state (parent_name p))) as Hreg.
    { intros name st ts t. unfold registered. simpl.
      destruct (decide (state_name state = name)) as [<-|Hne].
      - rewrite dict_get_set_eq. intros [= <-] Hts.
        rewrite (Hfresh ts Hts). by intros ?%elem_of_nil.
      - rewrite dict_get_set_ne by done. apply Hrec. }
    destruct (parent_name p) as [key|]; simpl; [|done].
    destruct (dict_get key _) as [ps|] eqn:Hps; simpl; [|done].
    destruct (add_child ps (state_name state)) as [ps'| |] eqn:Hadd;
      simpl; [|done..].
    intros name st ts t. simpl.
    destruct (decide (key = name)) as [<-|Hne].
    + rewrite dict_get_set_eq. intros [= <-].
      rewrite (add_child_transitions _ _ _ Hadd). by apply Hreg.
    + rewrite dict_get_set_ne by done. apply Hreg.
  - rewrite register_transition_run. simpl.
    assert (sources_recorded (set_transitions (λ ts, ts ++ [t]) m)) as Hreg.
    { intros name st ts t' Hst Hts Ht'. simpl.
      destruct (Hrec name st ts t' Hst Hts Ht') as [Hfrom Hin].
      split; [done|]. apply elem_of_app. by left. }
    destruct (dict_get (from_state t) (states m)) as [s|] eqn:Hs; [|done].
    destruct (add_transition s t) as [s'| |] eqn:Hadd; simpl; [|done..].
    intros name st ts t'. simpl.
    destruct (decide (from_state t = name)) as [<-|Hne].
    + rewrite dict_get_set_eq. intros [= <-] Hts Ht'.
      apply add_transition_transitions in Hadd as (ts0 & Hts0 & Hts').
      rewrite Hts' in Hts. injection Hts as <-.
      apply elem_of_app in Ht' as [Ht'|Ht'].
      2: { apply list_elem_of_singleton in Ht' as ->.
           split; [done|]. apply elem_of_app. right. left. }
      destruct (Hrec _ _ _ _ Hs Hts0 Ht') as [Hfrom Hin].
      split; [done|]. apply elem_of_app. by left.
    + rewrite dict_get_set_ne by done. apply Hreg.
Qed.

(** X23: after any sequence of registrations of freshly constructed
    states and of transitions on a new machine, whether all return or one
    raises midway, every transition held in a registered state's
    [transitions] has that state's name as [from_state] and is also in
    the machine's [transitions]. *)
Theorem sources_recorded_build rs name initial on_entry :
  Forall fresh_object rs →
  sources_recorded (build rs (new_machine name initial on_entry)).
Proof.
  unfold build. intros Hrs.
  assert (sources_recorded (new_machine name initial on_entry)) as Hnew
    by by intros ? ? ? ? ?.
  revert Hnew. generalize (new_machine name initial on_entry).
  induction Hrs as [|r rs Hr Hrs IH]; intros m Hrec; [done|].
  cbn [register_all]. unfold mbind, M_bind.
  pose proof (sources_recorded_register m r Hr Hrec) as Hrec'.
  destruct (register r m) as [[[]| |] m']; simpl in *; [|done..].
  by apply IH.
Qed.

Lemma sources_recorded_build_witness : sources_recorded ex_root_A.
Proof.
  apply sources_recorded_build.
  repeat constructor; by intros ts [= <-].
Defined.

(** ** Validation on machines built top-down *)

Lemma check_compound_Returns m name state i p :
  check_compound m name state = Returns () →
  compound_initial state = Some i →
  parent m !! name = Some (Some p) → p ≠ "" →
  parent m !! i = Some (Some name).
Proof.
  intros Hcpd Hi Hp Hne.
  destruct state as [| n i' ts en ex ch | | |]; simplify_eq/=.
  unfold parent_lookup in Hcpd. rewrite Hp in Hcpd. simpl in Hcpd.
  assert (truthy (Some p) = true) as Ht.
  { unfold truthy. by rewrite bool_decide_false. }
  rewrite Ht in Hcpd.
  destruct (parent m !! i) as [pi|]; simpl in Hcpd; [|done].
  case_bool_decide; simpl in Hcpd; [congruence|done].
Qed.

Lemma check_history_Returns m name state i :
  check_history m name state = Returns () →
  history_initial state = Some i → i ≠ "" →
  ∃ p, parent m !! name = Some (Some p) ∧ parent m !! i = Some (Some p).
Proof.
  intros Hhist Hi Hne.
  destruct state as [| | | n mem init deep |]; simplify_eq/=.
  unfold parent_lookup, states_lookup in Hhist.
  destruct (parent m !! name) as [pn|] eqn:Hpn; simpl in Hhist; [|done].
  destruct pn as [p|]; simpl in Hhist; [|done].
  destruct (dict_get p (states m)) as [ps|]; simpl in Hhist; [|done].
  destruct (is_compound ps); simpl in Hhist; [|done].
  assert (truthy (Some i) = true) as Ht.
  { unfold truthy. by rewrite bool_decide_false. }
  rewrite Ht in Hhist.
  destruct (parent m !! i) as [pi|]; simpl in Hhist; [|done].
  exists p. split; [done|].
  case_bool_decide; simpl in Hhist; [congruence|done].
Qed.

(** X24: on a machine built top-down on which [valid] returns, the
    [initial] of every compound state that has a parent of non-empty name
    is in that compound state's own children list, and the non-empty
    [initial] of every history state is in the children list of the
    history state's parent: the checks made on the parent index hold of
    the children lists. *)
Theorem built_valid_initial_is_child m b name state i :
  built m → valid m = Returns b →
  dict_get name (states m) = Some state →
  (compound_initial state = Some i →
   ∀ p, parent m !! name = Some (Some p) → p ≠ "" →
        i ∈ children_of state)
  ∧ (history_initial state = Some i → i ≠ "" →
     ∃ p ps, parent m !! name = Some (Some p)
             ∧ dict_get p (states m) = Some ps
             ∧ name ∈ children_of ps ∧ i ∈ children_of ps).
Proof.
  intros [[Hc _] _]%built_invariant [_ Hs]%valid_Returns Hst.
  rewrite Forall_forall in Hs.
  destruct (check_state_Returns m name state
              (Hs _ (dict_get_Some_elem _ _ _ Hst)))
    as (Hhist & _ & Hcpd).
  split.
  - intros Hi p Hp Hne.
    pose proof (check_compound_Returns m name state i p Hcpd Hi Hp Hne)
      as Hpi.
    apply Hc in Hpi as (st' & Hst' & Hin). congruence.
  - intros Hi Hne.
    destruct (check_history_Returns m name state i Hhist Hi Hne)
      as (p & Hp & Hpi).
    apply Hc in Hp as (ps & Hps & Hname).
    apply Hc in Hpi as (ps' & Hps' & Hin).
    exists p, ps. split_and!; [by apply Hc; exists ps|done..|congruence].
Qed.

Lemma top_down_built m rs :
  built m → top_down m rs = true → built (build rs m).
Proof.
  unfold build. revert m. induction rs as [|[state p|t] rs IH]; intros m Hb.
  - done.
  - cbn [top_down register_all register]. unfold mbind, M_bind.
    rewrite !andb_true_iff, !bool_decide_eq_true.
    intros ((((Hfresh & Hnew) & Hkids) & Hparent) & Hrun).
    destruct (register_state state p m) as [[[]| |] m'] eqn:Hreg;
      [|done..].
    apply IH; [|done].
    apply (built_state m state p m'); try done.
    + by destruct (dict_get (state_name state) (states m)).
    + destruct (parent_name p) as [key|]; [|by left].
      right. destruct (dict_get key (states m)) as [ps|] eqn:Hps; [|done].
      exists key, ps. split_and!; [done..|]. by rewrite Hparent.
  - cbn [top_down register_all register]. unfold mbind, M_bind.
    intros Htd.
    pose proof (built_transition m t Hb) as Hb'.
    destruct (register_transition t m) as [[[]| |] m']; simpl in *; try done.
    by apply IH.
Qed.

Lemma ex_nested_built : built ex_nested.
Proof. apply top_down_built; [apply built_new|by vm_compute]. Qed.

Lemma built_valid_initial_is_child_witness :
  "deep" ∈ ["deep"; "H"]
  ∧ ∃ p ps, parent ex_nested !! "H" = Some (Some p)
            ∧ dict_get p (states ex_nested) = Some ps
            ∧ "H" ∈ children_of ps ∧ "deep" ∈ children_of ps.
Proof.
  destruct (built_valid_initial_is_child ex_nested true "in"
              (CompoundState "in" "deep" [] None None ["deep"; "H"]) "deep")
    as [Hcpd _]; [apply ex_nested_built|by vm_compute..|].
  destruct (built_valid_initial_is_child ex_nested true "H"
              (HistoryState "H" [Some "deep"] (Some "deep") false) "deep")
    as [_ Hhist]; [apply ex_nested_built|by vm_compute..|].
  split.
  - by apply (Hcpd eq_refl "root"); [vm_compute|].
  - by apply Hhist.
Defined.

(** * Properties of the testing helpers *)

Lemma any_step_true test steps :
  testing.any_step test steps = true ↔
  ∃ step, step ∈ steps ∧ test step = true.
Proof.
  induction steps as [|s steps IH]; simpl.
  - split; [done|]. by intros (? & ?%elem_of_nil & _).
  - destruct (test s) eqn:Hs.
    + split; [|done]. intros _. exists s. split; [left|done].
    + rewrite IH. split.
      * intros (x & Hx & Ht). exists x. split; [by right|done].
      * intros (x & [->|Hx]%elem_of_cons & Ht); [congruence|eauto].
Qed.

Lemma any_step_app test l1 l2 :
  testing.any_step test (l1 ++ l2)
  = testing.any_step test l1 || testing.any_step test l2.
Proof.
  induction l1 as [|s l1 IH]; simpl; [done|]. by destruct (test s).
Qed.

(** X25: [state_is_entered] and [state_is_exited] hold of a list of steps
    exactly when some step of the list entered, respectively exited, the
    state; a single step counts as the list of that step; and over the
    concatenation of two lists of steps each of them is the disjunction
    of its values on the two lists, so that no steps hold it false. *)
Theorem state_scans_compose (l1 l2 : list testing.MacroStep) step name :
  (testing.state_is_entered (testing.StepList l1) name = true ↔
   ∃ s, s ∈ l1 ∧ name ∈ testing.entered_states s)
  ∧ (testing.state_is_exited (testing.StepList l1) name = true ↔
     ∃ s, s ∈ l1 ∧ name ∈ testing.exited_states s)
  ∧ testing.state_is_entered (testing.OneStep step) name
    = testing.state_is_entered (testing.StepList [step]) name
  ∧ testing.state_is_exited (testing.OneStep step) name
    = testing.state_is_exited (testing.StepList [step]) name
  ∧ testing.state_is_entered (testing.StepList (l1 ++ l2)) name
    = testing.state_is_entered (testing.StepList l1) name
      || testing.state_is_entered (testing.StepList l2) name
  ∧ testing.state_is_exited (testing.StepList (l1 ++ l2)) name
    = testing.state_is_exited (testing.StepList l1) name
      || testing.state_is_exited (testing.StepList l2) name
  ∧ testing.state_is_entered (testing.StepList []) name = false.
Proof.
  unfold testing.state_is_entered, testing.state_is_exited. simpl.
  split_and!; try done.
  - rewrite any_step_true. by setoid_rewrite bool_decide_eq_true.
  - rewrite any_step_true. by setoid_rewrite bool_decide_eq_true.
  - apply any_step_app.
  - apply any_step_app.
Qed.

Section testing_facts.
Context {value : Type} `{EqDecision value}.
Context (getattr : Event → string → option value).
Context (transition_eq : Transition → Transition → bool).

Lemma matching_parameters_true event parameters :
  testing.matching_parameters getattr event parameters = true ↔
  ∀ key v, (key, v) ∈ parameters → getattr event key = v.
Proof.
  induction parameters as [|[k v] ps IH]; simpl.
  - split; [|done]. by intros _ ? ? ?%elem_of_nil.
  - case_bool_decide as Hne.
    + split; [done|]. intros Hall. destruct Hne. apply Hall. left.
    + rewrite IH. split.
      * intros Hall key v' [[= -> ->]|Hin]%elem_of_cons; [|by apply Hall].
        by destruct (decide (getattr event k = v)).
      * intros Hall key v' Hin. apply Hall. by right.
Qed.

Lemma any_event_true name parameters events :
  testing.any_event getattr name parameters events = true ↔
  ∃ event, event ∈ events
           ∧ (∀ n, name = Some n → ev_name event = n)
           ∧ ∀ key v, (key, v) ∈ parameters → getattr event key = v.
Proof.
  induction events as [|e events IH]; simpl.
  - split; [done|]. by intros (? & ?%elem_of_nil & _).
  - assert (match name with
            | None => true
            | Some n => bool_decide (ev_name e = n)
            end = true ↔ ∀ n, name = Some n → ev_name e = n) as Hname.
    { destruct name as [n|]; [|by split].
      rewrite bool_decide_eq_true. split; [by intros -> ? [= <-]|auto]. }
    destruct (match name with None => true | Some _ => _ end) eqn:Hn.
    + destruct (testing.matching_parameters getattr e parameters) eqn:Hm.
      * split; [|done]. intros _. exists e. split_and!; [left|..].
        -- by apply Hname.
        -- by apply matching_parameters_true.
      * rewrite IH. split.
        -- intros (x & Hx & Hrest). exists x. split; [by right|done].
        -- intros (x & [->|Hx]%elem_of_cons & Hxn & Hxp); [|by eauto].
           apply matching_parameters_true in Hxp. congruence.
    + rewrite IH. split.
      * intros (x & Hx & Hrest). exists x. split; [by right|done].
      * intros (x & [->|Hx]%elem_of_cons & Hxn & Hxp); [|by eauto].
        apply Hname in Hxn. congruence.
Qed.

Lemma event_is_fired_true steps name parameters :
  testing.event_is_fired getattr steps name parameters = true ↔
  ∃ step event,
    step ∈ testing.as_list steps ∧ event ∈ testing.sent_events step
    ∧ (∀ n, name = Some n → ev_name event = n)
    ∧ ∀ key v, (key, v) ∈ default [] parameters → getattr event key = v.
Proof.
  unfold testing.event_is_fired. rewrite any_step_true. split.
  - intros (step & Hstep & (event & He)%any_event_true). by exists step, event.
  - intros (step & event & Hstep & He). exists step. split; [done|].
    apply any_event_true. by exists event.
Qed.

(** X26: [event_is_fired] holds exactly when some step sent an event that
    has the given name, if one is given, and whose attributes equal all
    given parameters; so when it holds, it still holds with the name
    dropped, with the parameters dropped, or with fewer parameters. *)
Theorem event_is_fired_spec steps name parameters :
  (testing.event_is_fired getattr steps name parameters = true ↔
   ∃ step event,
     step ∈ testing.as_list steps ∧ event ∈ testing.sent_events step
     ∧ (∀ n, name = Some n → ev_name event = n)
     ∧ ∀ key v, (key, v) ∈ default [] parameters → getattr event key = v)
  ∧ (testing.event_is_fired getattr steps name parameters = true →
     ∀ fewer, fewer ⊆ default [] parameters →
       testing.event_is_fired getattr steps name (Some fewer) = true
       ∧ testing.event_is_fired getattr steps name None = true
       ∧ testing.event_is_fired getattr steps None (Some fewer) = true
       ∧ testing.event_is_fired getattr steps None None = true).
Proof.
  split; [apply event_is_fired_true|].
  intros (step & event & Hstep & He & Hn & Hp)%event_is_fired_true
    fewer Hsub.
  split_and!; apply event_is_fired_true; exists step, event; simpl.
  - split_and!; [done..|]. intros key v Hin. by apply Hp, Hsub.
  - split_and!; [done..|]. by intros ? ? ?%elem_of_nil.
  - split_and!; [done..| |]; [done|]. intros key v Hin. by apply Hp, Hsub.
  - split_and!; [done..| |]; [done|]. by intros ? ? ?%elem_of_nil.
Qed.

(** X27: [transition_is_processed] without a transition holds exactly
    when some step processed at least one transition; with a transition
    it holds exactly when some step processed one equal to it, and then
    it also holds without a transition. *)
Theorem transition_is_processed_any steps :
  (testing.transition_is_processed transition_eq steps None = true ↔
   ∃ step, step ∈ testing.as_list steps ∧ testing.transitions step ≠ [])
  ∧ ∀ t,
      (testing.transition_is_processed transition_eq steps (Some t) = true ↔
       ∃ step t', step ∈ testing.as_list steps
                  ∧ t' ∈ testing.transitions step
                  ∧ transition_eq t t' = true)
      ∧ (testing.transition_is_processed transition_eq steps (Some t) = true →
         testing.transition_is_processed transition_eq steps None = true).
Proof.
  assert (∀ t, testing.transition_is_processed transition_eq steps (Some t)
               = true ↔
               ∃ step t', step ∈ testing.as_list steps
                          ∧ t' ∈ testing.transitions step
                          ∧ transition_eq t t' = true) as Hsome.
  { intros t. unfold testing.transition_is_processed, testing.transition_in.
    rewrite any_step_true. split.
    - intros (step & Hstep & (t' & Ht' & Heq)%existsb_exists).
      exists step, t'. by rewrite <-list_elem_of_In in Ht'.
    - intros (step & t' & Hstep & Ht' & Heq). exists step. split; [done|].
      apply existsb_exists. exists t'. by rewrite <-list_elem_of_In. }
  assert (testing.transition_is_processed transition_eq steps None = true ↔
          ∃ step, step ∈ testing.as_list steps
                  ∧ testing.transitions step ≠ []) as Hnone.
  { unfold testing.transition_is_processed. rewrite any_step_true.
    split; intros (step & Hstep & Hlen); exists step; (split; [done|]).
    - apply bool_decide_eq_true in Hlen. intros Hnil.
      rewrite Hnil in Hlen. simpl in Hlen. lia.
    - apply bool_decide_eq_true.
      destruct (testing.transitions step); [done|simpl; lia]. }
  split; [done|]. intros t. split; [done|].
  rewrite Hsome, Hnone. intros (step & t' & Hstep & Ht' & _).
  exists step. split; [done|]. intros Hnil. rewrite Hnil in Ht'.
  by apply elem_of_nil in Ht'.
Qed.
End testing_facts.

Lemma event_is_fired_spec_witness :
  testing.event_is_fired (λ e k, if decide (k = "name") then Some (ev_name e)
                                 else None)
    (testing.OneStep (testing.mkMacroStep ["A"] [] [mkEvent "go" None] []))
    None None = true
  ∧ testing.event_is_fired (λ e k, if decide (k = "name")
                                   then Some (ev_name e) else None)
      (testing.OneStep (testing.mkMacroStep ["A"] [] [mkEvent "go" None] []))
      (Some "stop") None = false.
Proof.
  set (getattr := λ (e : Event) (k : string),
         if decide (k = "name") then Some (ev_name e) else None).
  set (steps := testing.OneStep
                  (testing.mkMacroStep ["A"] [] [mkEvent "go" None] [])).
  destruct (event_is_fired_spec getattr steps (Some "go")
              (Some [("name", Some "go"); ("data", None)]))
    as [Hiff Hweak].
  destruct (event_is_fired_spec getattr steps (Some "stop") None)
    as [Hstop _].
  split.
  - apply (Hweak ltac:(by vm_compute) []). by intros x ?%elem_of_nil.
  - apply not_true_is_false. intros Hf.
    apply Hstop in Hf as (step & event & Hstep & Hev & Hname & _).
    apply list_elem_of_singleton in Hstep as ->.
    apply list_elem_of_singleton in Hev as ->.
    by specialize (Hname "stop" eq_refl).
Defined.

Lemma transition_is_processed_any_witness :
  testing.transition_is_processed
    (λ a b, bool_decide (from_state a = from_state b))
    (testing.StepList
       [testing.mkMacroStep [] [] [] [];
        testing.mkMacroStep ["B"] ["A"] [] [tr_go "A" "B"]])
    None = true.
Proof.
  destruct (transition_is_processed_any
              (λ a b, bool_decide (from_state a = from_state b))
              (testing.StepList
                 [testing.mkMacroStep [] [] [] [];
                  testing.mkMacroStep ["B"] ["A"] [] [tr_go "A" "B"]]))
    as [_ H].
  destruct (H (tr_go "A" "C")) as [_ Hany]. apply Hany. by vm_compute.
Defined.

(** * Further properties: failures and bounds *)

(** X28: registering a state under a registered state that is not a
    composite fails with [AttributeError] after [states] and [parent]
    have been written: the new state is registered, its parent entry
    names the non-composite state, and it is in no children list, neither
    the parent's nor the top-level one. *)
Theorem register_state_noncomposite_parent m state p key ps :
  parent_name p = Some key → key ≠ state_name state →
  dict_get key (states m) = Some ps → is_composite ps = false →
  ∃ m', register_state state p m
        = (Raises (AttributeError (class_name ps) "add_child"), m')
    ∧ dict_get (state_name state) (states m') = Some state
    ∧ parent m' !! state_name state = Some (Some key)
    ∧ children m' = children m
    ∧ transitions m' = transitions m
    ∧ ∀ k, k ≠ state_name state →
           dict_get k (states m') = dict_get k (states m)
           ∧ parent m' !! k = parent m !! k.
Proof.
  intros Hp Hne Hps Hcomp. rewrite register_state_run, Hp. simpl.
  rewrite dict_get_set_ne, Hps by done.
  rewrite add_child_not_composite by (rewrite Hcomp; exact id).
  eexists. split; [done|]. simpl. split_and!; try done.
  - apply dict_get_set_eq.
  - apply lookup_insert_eq.
  - intros k Hk. by rewrite dict_get_set_ne, lookup_insert_ne.
Qed.

Lemma register_state_noncomposite_parent_witness :
  ∃ m', register_state (BasicState "C" [] None None)
          (ParentName (Some "A")) ex_root_A
        = (Raises (AttributeError "BasicState" "add_child"), m')
        ∧ parent m' !! "C" = Some (Some "A")
        ∧ children m' = children ex_root_A.
Proof.
  destruct (register_state_noncomposite_parent ex_root_A
              (BasicState "C" [] None None) (ParentName (Some "A")) "A"
              (BasicState "A" [tr_go "A" "B"] None None))
    as (m' & Hrun & _ & Hpar & Hch & _); try done.
  exists m'. by split_and!.
Defined.

Lemma walked_keys m v l :
  walked m v l → ∀ x, x ∈ l → x ∈ dom (parent m).
Proof.
  induction 1 as [v Hv|p v l Hp Hv Hw IH]; intros x.
  - by intros ?%elem_of_nil.
  - intros [->|Hx]%elem_of_cons; [|by apply IH].
    apply elem_of_dom. by eexists.
Qed.

Lemma NoDup_length_size (l : list string) (X : gset string) :
  NoDup l → (∀ x, x ∈ l → x ∈ X) → length l ≤ size X.
Proof.
  intros Hnd Hsub. rewrite <-(size_list_to_set (C:=gset string) l Hnd).
  apply subseteq_size. intros x Hx%elem_of_list_to_set. by apply Hsub.
Qed.

(** X29: a returned depth is bounded by the number of registered names:
    whenever [ancestors_for] returns, the state and its ancestors are
    distinct keys of [parent], so [depth_of] returns at most the size of
    [parent]; and that size is always enough fuel for both calls to
    return again. *)
Theorem depth_of_bounded m fuel s l :
  ancestors_for fuel m s = Returns l →
  length l + 1 ≤ size (parent m)
  ∧ ancestors_for (size (parent m)) m s = Returns l
  ∧ depth_of (size (parent m)) m (Some s) = Returns (length l + 1).
Proof.
  intros (v & Hv & Hw)%ancestors_for_Returns_walked.
  assert (s ∉ l) as Hself.
  { intros (pre & suf & ->)%list_elem_of_split.
    destruct (walked_suffix m _ _ _ _ Hw) as (v' & Hv' & Hsuf).
    assert (v' = v) as -> by congruence.
    pose proof (walked_functional m _ _ _ Hw Hsuf) as Heq.
    apply (f_equal length) in Heq. rewrite length_app in Heq.
    simpl in Heq. lia. }
  assert (length (s :: l) ≤ size (dom (parent m))) as Hlen.
  { apply NoDup_length_size.
    - constructor; [done|]. by eapply walked_NoDup.
    - intros x [->|Hx]%elem_of_cons.
      + apply elem_of_dom. by eexists.
      + by eapply walked_keys. }
  rewrite size_dom in Hlen. simpl in Hlen.
  assert (ancestors_for (size (parent m)) m s = Returns l) as Hanc.
  { apply ancestors_for_walked. exists v. split; [done|].
    apply walked_ancestors_loop; [done|lia]. }
  split_and!; [lia|done|]. unfold depth_of. by rewrite Hanc.
Qed.

Lemma depth_of_bounded_witness :
  3 + 1 ≤ size (parent ex_regions)
  ∧ depth_of (size (parent ex_regions)) ex_regions (Some "X1") = Returns 4.
Proof.
  destruct (depth_of_bounded ex_regions 3 "X1" ["R1"; "P"; "root"])
    as (Hle & _ & Hd); [by vm_compute|].
  by split.
Defined.

(** X30: [least_common_ancestor] never returns one of its two arguments,
    nor the empty name: a returned state is a proper ancestor of both. *)
Theorem least_common_ancestor_proper m fuel s1 s2 a :
  least_common_ancestor fuel m s1 s2 = Returns (Some a) →
  a ≠ s1 ∧ a ≠ s2 ∧ a ≠ ""
  ∧ climbs m s1 a ∧ climbs m s2 a.
Proof.
  intros (l1 & l2 & H1 & H2 & Hfc)%least_common_ancestor_Returns.
  symmetry in Hfc.
  apply first_common_Some in Hfc as (pre & suf & -> & Ha2 & _).
  assert (a ∈ pre ++ a :: suf) as Ha1.
  { apply elem_of_app. right. left. }
  assert (∀ s l, ancestors_for fuel m s = Returns l → a ∈ l →
            a ≠ s ∧ a ≠ "" ∧ climbs m s a) as Hproper.
  { clear. intros s l (v & Hv & Hw)%ancestors_for_Returns_walked Ha.
    split_and!.
    - intros ->. apply list_elem_of_split in Ha as (pre & suf & ->).
      destruct (walked_suffix m _ _ _ _ Hw) as (v' & Hv' & Hsuf).
      assert (v' = v) as -> by congruence.
      pose proof (walked_functional m _ _ _ Hw Hsuf) as Heq.
      apply (f_equal length) in Heq. rewrite length_app in Heq.
      simpl in Heq. lia.
    - intros ->. by apply (walked_nonempty m v l).
    - revert s Hv. induction Hw as [v Hf|p v l Hp Hv' Hw IH]; intros s Hv.
      + by apply elem_of_nil in Ha.
      + assert (p ≠ "") as Hne.
        { intros ->. by vm_compute in Hp. }
        apply elem_of_cons in Ha as [->|Ha].
        * by apply climbs_one.
        * eapply climbs_more; [exact Hv|done|]. by apply IH. }
  destruct (Hproper s1 _ H1 Ha1) as (? & ? & ?).
  destruct (Hproper s2 _ H2 Ha2) as (? & _ & ?).
  by split_and!.
Qed.

Lemma least_common_ancestor_proper_witness :
  "P" ≠ "X1" ∧ "P" ≠ "X2" ∧ climbs ex_regions "X1" "P".
Proof.
  destruct (least_common_ancestor_proper ex_regions 3 "X1" "X2" "P")
    as (H1 & H2 & _ & Hc & _); [by vm_compute|].
  by split_and!.
Defined.
